(** * Verification of the address book core (Projekt1/address_book.py)

    The development embeds the identifier allocator of [AddressBook]
    ([add_record], [_get_next_record_id], [delete_record_by_id]), the exact
    search [find_record], the two edit-distance routines
    ([levenshtein_distance], [weighted_levenshtein_distance]) and the
    suggestion routine [suggest_correction_search], then the search and the
    deletion by name ([find_records_by_name], [delete_record]), the iteration
    in groups of five ([__iter__], [__next__]), [suggest_closest_command] and
    the validation of phones and emails, and proves properties of them.

    Modelling conventions
    - A Python [str] is a list of characters ([list ascii]); [len] is
      [length], [s[i]] is the checked lookup [s !! i].
    - Python integers are unbounded: identifiers are [Z]; lengths, indices and
      the cells of the distance tables are [nat] (they are never negative).
    - A raised exception ([IndexError], [ValueError]) is [None].
    - The true division [/] of two integers is the exact rational in [Q]. *)

From Stdlib Require Import ZArith QArith Ascii String Lia.
From stdpp Require Import base option list gmap sets strings.

Local Open Scope nat_scope.

Abbreviation str := (list ascii).

(** A Python string literal. *)
Definition py (s : string) : str := list_ascii_of_string s.

(** ** Edit distance *)

(** *** Checked list access *)

(** [l[i] = v] on a Python list: [IndexError] when [i] is out of range. *)
Definition list_set {A} (l : list A) (i : nat) (v : A) : option (list A) :=
  if decide (i < length l) then Some (<[i := v]> l) else None.

Abbreviation matrix := (list (list nat)).

(** [matrix[i][j]] *)
Definition get_cell (m : matrix) (i j : nat) : option nat :=
  row ← m !! i; row !! j.

(** [matrix[i][j] = v]: the row object [matrix[i]] is updated in place. *)
Definition set_cell (m : matrix) (i j v : nat) : option matrix :=
  row ← m !! i; row' ← list_set row j v; list_set m i row'.

(** [for x in xs: st = body x st], stopping at the first exception. *)
Fixpoint for_each {A St} (xs : list A) (body : A → St → option St) (st : St)
  : option St :=
  match xs with
  | [] => Some st
  | x :: rest => st' ← body x st; for_each rest body st'
  end.

(** [0 if c1 == c2 else 1], also the value of [c1 != c2] as an integer. *)
Definition subst_cost (c1 c2 : ascii) : nat :=
  if decide (c1 = c2) then 0 else 1.

(** *** [weighted_levenshtein_distance] *)

(** [[[0] * cols for _ in range(rows)]]: every row is a fresh list. *)
Definition zero_matrix (rows cols : nat) : matrix :=
  replicate rows (replicate cols 0).

(** The body of the doubly nested loop, for one cell [(i, j)]. *)
Definition fill_cell (s1 s2 : str) (i j : nat) (m : matrix) : option matrix :=
  c1 ← s1 !! (i - 1);
  c2 ← s2 !! (j - 1);
  let cost := subst_cost c1 c2 in
  up ← get_cell m (i - 1) j;
  left ← get_cell m i (j - 1);
  diag ← get_cell m (i - 1) (j - 1);
  set_cell m i j (Nat.min (up + 1) (Nat.min (left + 1) (diag + cost))).

(** The table built by [weighted_levenshtein_distance] before it divides. *)
Definition distance_matrix (s1 s2 : str) : option matrix :=
  let len_s1 := length s1 in
  let len_s2 := length s2 in
  let m0 := zero_matrix (len_s1 + 1) (len_s2 + 1) in
  m1 ← for_each (seq 0 (len_s1 + 1)) (λ i m, set_cell m i 0 i) m0;
  m2 ← for_each (seq 0 (len_s2 + 1)) (λ j m, set_cell m 0 j j) m1;
  for_each (seq 1 len_s1)
    (λ i m, for_each (seq 1 len_s2) (λ j m', fill_cell s1 s2 i j m') m) m2.

(** An integer of the program as a rational. *)
Definition Qnat (n : nat) : Q := inject_Z (Z.of_nat n).

Definition weighted_levenshtein_distance (s1 s2 : str) : option Q :=
  let len_s1 := length s1 in
  let len_s2 := length s2 in
  if decide (len_s1 = 0) then Some (Qnat len_s2)
  else if decide (len_s2 = 0) then Some (Qnat len_s1)
  else
    m ← distance_matrix s1 s2;
    d ← get_cell m len_s1 len_s2;
    Some (Qnat d / Qnat (Nat.max len_s1 len_s2))%Q.

(** *** [levenshtein_distance] *)

(** The inner loop [for j, c2 in enumerate(s2)]; [j] counts the characters
    already consumed. *)
Fixpoint row_loop (c1 : ascii) (s2 : str) (j : nat)
    (previous_row current_row : list nat) : option (list nat) :=
  match s2 with
  | [] => Some current_row
  | c2 :: rest =>
      p1 ← previous_row !! (j + 1);
      let insertions := p1 + 1 in
      c0 ← current_row !! j;
      let deletions := c0 + 1 in
      p0 ← previous_row !! j;
      let substitutions := p0 + subst_cost c1 c2 in
      row_loop c1 rest (S j) previous_row
        (current_row ++ [Nat.min insertions (Nat.min deletions substitutions)])
  end.

(** The outer loop [for i, c1 in enumerate(s1)]. *)
Fixpoint rows_loop (s1 s2 : str) (i : nat) (previous_row : list nat)
  : option (list nat) :=
  match s1 with
  | [] => Some previous_row
  | c1 :: rest =>
      current_row ← row_loop c1 s2 0 previous_row [i + 1];
      rows_loop rest s2 (S i) current_row
  end.

(** The function below its first test, where [len(s1) >= len(s2)]. *)
Definition levenshtein_rows (s1 s2 : str) : option nat :=
  if decide (length s2 = 0) then Some (length s1)
  else
    let previous_row := seq 0 (length s2 + 1) in
    last_row ← rows_loop s1 s2 0 previous_row;
    last last_row.

(** [levenshtein_distance]: the recursive call on the swapped arguments
    finds [len(s1) >= len(s2)] and goes straight to the rows. *)
Definition levenshtein_distance (s1 s2 : str) : option nat :=
  if decide (length s1 < length s2) then levenshtein_rows s2 s1
  else levenshtein_rows s1 s2.

(** *** The classic recurrence *)

(** [lev_rec a b i j]: the recurrence over the prefixes [a[:i]] and [b[:j]]:
    the first row and column hold the index, an interior cell is the minimum
    of the cell above plus one, the cell to the left plus one and the
    diagonal cell plus the substitution cost. *)
Fixpoint lev_rec (a b : str) (i j : nat) : nat :=
  match i with
  | 0 => j
  | S i' =>
      (fix along (j : nat) : nat :=
         match j with
         | 0 => S i'
         | S j' =>
             Nat.min (lev_rec a b i' (S j') + 1)
               (Nat.min (along j' + 1)
                  (lev_rec a b i' j' +
                   (if decide (a !! i' = b !! j') then 0 else 1)))
         end) j
  end.

(** ** The address book *)

(** A [Record] object of the program. [rec_obj] is the identity of the
    object (what [is] compares): the book stores references, so two entries
    with the same [rec_obj] are one object reached through two keys.
    [rec_id] is [None] until a book assigns an identifier. The birthday and
    the address play no part in allocation, search or suggestion and are
    left out. *)
Record ContactRecord := {
  rec_obj : nat;
  rec_id : option Z;
  rec_name : str;
  rec_phones : list str;
  rec_emails : list str
}.

#[global] Instance ContactRecord_eq_dec : EqDecision ContactRecord.
Proof. solve_decision. Defined.

(** [record.id = i] *)
Definition set_id (record : ContactRecord) (i : Z) : ContactRecord :=
  {| rec_obj := rec_obj record; rec_id := Some i; rec_name := rec_name record;
     rec_phones := rec_phones record; rec_emails := rec_emails record |}.

(** A Python [dict] with integer keys, in insertion order. *)
Abbreviation dict := (list (Z * ContactRecord)).

(** [d[k] = v]: a present key keeps its place, a new key goes last. *)
Fixpoint dict_set (d : dict) (k : Z) (v : ContactRecord) : dict :=
  match d with
  | [] => [(k, v)]
  | (k', v') :: rest =>
      if decide (k = k') then (k, v) :: rest else (k', v') :: dict_set rest k v
  end.

(** [del d[k]] *)
Definition dict_del (d : dict) (k : Z) : dict :=
  filter (λ kv, kv.1 ≠ k) d.

(** [AddressBook]: the [UserDict] data and the two allocator fields. *)
Record AddressBook := {
  data : dict;
  next_id : Z;
  free_ids : gset Z
}.

(** [AddressBook()] *)
Definition new_book : AddressBook :=
  {| data := []; next_id := 1; free_ids := ∅ |}.

(** The [while] loop of [_get_next_record_id]; [None] when the fuel runs out
    before the loop condition turns false. *)
Fixpoint skip_used_ids (fuel : nat) (d : dict) (free : gset Z) (n : Z)
  : option Z :=
  match fuel with
  | O => None
  | S fuel' =>
      if decide (n ∈ d.*1 ∨ n ∈ free) then skip_used_ids fuel' d free (n + 1)%Z
      else Some n
  end.

(** The loop visits at most one value per key and per released identifier,
    and one more. *)
Definition advance_next_id (book : AddressBook) : option Z :=
  skip_used_ids (length (data book) + size (free_ids book) + 1)
    (data book) (free_ids book) (next_id book).

(** [_get_next_record_id]: after the loop, [self.free_ids.pop()] removes and
    returns an arbitrary element of a non-empty set; an empty set gives
    [self.next_id]. *)
Inductive _get_next_record_id (book : AddressBook) : Z → AddressBook → Prop :=
  | next_id_recycled n x :
      advance_next_id book = Some n →
      x ∈ free_ids book →
      _get_next_record_id book x
        {| data := data book; next_id := n;
           free_ids := free_ids book ∖ {[x]} |}
  | next_id_fresh n :
      advance_next_id book = Some n →
      free_ids book = ∅ →
      _get_next_record_id book n
        {| data := data book; next_id := n; free_ids := free_ids book |}.

(** The assignment [record.id = i] as the book sees it: every key that
    refers to the object [record] shows that object, with its new
    identifier. *)
Definition stamp (record : ContactRecord) (i : Z) (d : dict) : dict :=
  (λ kv, if decide (rec_obj kv.2 = rec_obj record)
         then (kv.1, set_id record i) else kv) <$> d.

(** [add_record]: [add_record book record i book'] when the call can assign
    [i] and leave the book as [book']. [record] is the object passed, as it
    is before the call: the identifier is written into that object, and the
    reference to it is stored under the identifier. *)
Inductive add_record (book : AddressBook) (record : ContactRecord)
  : Z → AddressBook → Prop :=
  | add_record_intro i book1 :
      _get_next_record_id book i book1 →
      add_record book record i
        {| data := dict_set (stamp record i (data book1)) i
                     (set_id record i);
           next_id := next_id book1; free_ids := free_ids book1 |}.

(** What [delete_record_by_id] prints. *)
Inductive Message := Deleted (record_id : Z) | NotFound | InvalidId.

(** [delete_record_by_id]; [input] is the result of [int(record_id_str)],
    [None] when it raises [ValueError]. *)
Definition delete_record_by_id (book : AddressBook) (input : option Z)
  : AddressBook * Message :=
  match input with
  | Some record_id =>
      if decide (record_id ∈ (data book).*1) then
        ({| data := dict_del (data book) record_id;
            next_id := next_id book;
            free_ids := {[record_id]} ∪ free_ids book |}, Deleted record_id)
      else (book, NotFound)
  | None => (book, InvalidId)
  end.

(** Books built from [AddressBook()] by [add_record] and
    [delete_record_by_id]. *)
Inductive reachable : AddressBook → Prop :=
  | reachable_new : reachable new_book
  | reachable_add book record i book' :
      reachable book → add_record book record i book' → reachable book'
  | reachable_delete book input :
      reachable book → reachable (delete_record_by_id book input).1.

(** The books among them where no [add_record] was given an object that the
    book held at that moment. *)
Inductive reachable_unshared : AddressBook → Prop :=
  | unshared_new : reachable_unshared new_book
  | unshared_add book record i book' :
      reachable_unshared book →
      rec_obj record ∉ rec_obj <$> (data book).*2 →
      add_record book record i book' → reachable_unshared book'
  | unshared_delete book input :
      reachable_unshared book →
      reachable_unshared (delete_record_by_id book input).1.

(** ** Search *)

(** [t in s] on strings: [t] occurs in [s] as a contiguous block. *)
Fixpoint starts_with (t s : str) : bool :=
  match t, s with
  | [], _ => true
  | _ :: _, [] => false
  | c :: t', c' :: s' => if decide (c = c') then starts_with t' s' else false
  end.

Fixpoint str_in (t s : str) : bool :=
  starts_with t s || match s with [] => false | _ :: s' => str_in t s' end.

(** [str.lower] on plain ASCII text. *)
Definition ascii_lower (c : ascii) : ascii :=
  let n := nat_of_ascii c in
  if decide (65 ≤ n ≤ 90) then ascii_of_nat (n + 32) else c.

Section Search.

(** [str.lower] is a built-in of the language: any function on strings. *)
Variable lower : str → str.

(** [for v in values: if term in v: found.append(record); break] *)
Fixpoint scan_values (term : str) (values : list str) (record : ContactRecord)
    (found_records : list ContactRecord) : list ContactRecord :=
  match values with
  | [] => found_records
  | v :: rest =>
      if str_in term v then found_records ++ [record]
      else scan_values term rest record found_records
  end.

(** The loop of [find_record] over [self.data.values()]. *)
Fixpoint find_loop (search_term : str) (records : list ContactRecord)
    (found_records : list ContactRecord) : list ContactRecord :=
  match records with
  | [] => found_records
  | record :: rest =>
      if str_in (lower search_term) (lower (rec_name record)) then
        find_loop search_term rest (found_records ++ [record])
      else
        let found1 :=
          scan_values search_term (rec_phones record) record found_records in
        let found2 :=
          scan_values search_term (rec_emails record) record found1 in
        find_loop search_term rest found2
  end.

Definition find_record (book : AddressBook) (search_term : str)
  : list ContactRecord :=
  find_loop search_term (data book).*2 [].

(** What one pass of the loop body appends for [record]. *)
Definition matches_of (term : str) (record : ContactRecord)
  : list ContactRecord :=
  if str_in (lower term) (lower (rec_name record)) then [record]
  else (if existsb (str_in term) (rec_phones record) then [record] else []) ++
       (if existsb (str_in term) (rec_emails record) then [record] else []).

End Search.

(** ** Suggestions *)

(** Python's [min(xs, key=key)]: the first item stays unless a later one has
    a strictly smaller key; [ValueError] on an empty sequence. *)
Fixpoint min_loop (key : str → option Q) (best : str) (best_key : Q)
    (rest : list str) : option str :=
  match rest with
  | [] => Some best
  | x :: rest' =>
      k ← key x;
      if Qlt_le_dec k best_key then min_loop key x k rest'
      else min_loop key best best_key rest'
  end.

Definition py_min (key : str → option Q) (xs : list str) : option str :=
  match xs with
  | [] => None
  | x :: rest => k ← key x; min_loop key x k rest
  end.

(** The candidate strings: all names, then all phones, then all emails. *)
Definition all_search_terms (book : AddressBook) : list str :=
  let records := (data book).*2 in
  (rec_name <$> records) ++ (records ≫= rec_phones) ++ (records ≫= rec_emails).

(** The [min] of [suggest_correction_search] over given candidates. *)
Definition suggest (search_term : str) (candidates : list str) : option str :=
  py_min (λ x, weighted_levenshtein_distance search_term x) candidates.

Definition suggest_correction_search (search_term : str) (book : AddressBook)
  : option str :=
  suggest search_term (all_search_terms book).

(** ** Notions used in the statements *)

(** Row [i] of the recurrence, as the list the loop holds. *)
Definition rec_row (a b : str) (i n : nat) : list nat :=
  lev_rec a b i <$> seq 0 n.

(** A table of [rows] rows with [cols] cells each. *)
Definition dims (m : matrix) (rows cols : nat) : Prop :=
  length m = rows ∧ Forall (λ row, length row = cols) m.

(** The cells that hold their final value when the third loop has finished
    [k] rows and [k'] cells of the next one. *)
Definition filled (k k' i j : nat) : Prop :=
  i ≤ k ∨ j = 0 ∨ (i = S k ∧ j ≤ k').

(** The table has its dimensions and the filled cells hold the recurrence. *)
Definition table_upto (a b : str) (k k' : nat) (m : matrix) : Prop :=
  dims m (length a + 1) (length b + 1) ∧
  ∀ i j, i ≤ length a → j ≤ length b → filled k k' i j →
         get_cell m i j = Some (lev_rec a b i j).

(** The recurrence in the words of the specification, as a property of a
    table: the first column and the first row hold the index, and an interior
    cell is the minimum of the three neighbours' costs. *)
Definition classic_table (a b : str) (m : matrix) : Prop :=
  (∀ i, i ≤ length a → get_cell m i 0 = Some i) ∧
  (∀ j, j ≤ length b → get_cell m 0 j = Some j) ∧
  (∀ i j c1 c2, a !! i = Some c1 → b !! j = Some c2 →
     ∃ up left diag,
       get_cell m i (S j) = Some up ∧
       get_cell m (S i) j = Some left ∧
       get_cell m i j = Some diag ∧
       get_cell m (S i) (S j) =
         Some (Nat.min (up + 1) (Nat.min (left + 1) (diag + subst_cost c1 c2)))).

(** The identifiers the loop can still run into from [n] on. *)
Definition used_from (d : dict) (free : gset Z) (n : Z) : gset Z :=
  filter (λ x, (n ≤ x)%Z) (list_to_set d.*1 ∪ free).

(** The invariant of the allocator: distinct positive keys; every stored
    record holds a positive identifier; released identifiers positive and
    not keys; every positive integer below [next_id] a key or released. *)
Record book_inv (book : AddressBook) : Prop := {
  inv_keys_nodup : NoDup (data book).*1;
  inv_ids : ∀ k r, (k, r) ∈ data book →
                   (0 < k)%Z ∧ ∃ i, rec_id r = Some i ∧ (0 < i)%Z;
  inv_disjoint : ∀ k, k ∈ free_ids book → k ∉ (data book).*1;
  inv_free_pos : ∀ k, k ∈ free_ids book → (0 < k)%Z;
  inv_next_pos : (1 ≤ next_id book)%Z;
  inv_below : ∀ k, (0 < k < next_id book)%Z →
                   k ∈ (data book).*1 ∨ k ∈ free_ids book
}.

(** What holds besides where no object is stored twice: the stored objects
    are pairwise distinct and each holds its key. *)
Record unshared_inv (book : AddressBook) : Prop := {
  unshared_objs : NoDup (rec_obj <$> (data book).*2);
  unshared_ids : ∀ k r, (k, r) ∈ data book → rec_id r = Some k
}.

(** [i] is the smallest positive integer that is not a key of the book. *)
Definition smallest_unused (book : AddressBook) (i : Z) : Prop :=
  (0 < i)%Z ∧ (i ∉ (data book).*1) ∧
  ∀ k, (0 < k < i)%Z → k ∈ (data book).*1.

(** [i] is the minimum of the set [s]. *)
Definition is_minimum (s : gset Z) (i : Z) : Prop :=
  i ∈ s ∧ ∀ k, k ∈ s → (i ≤ k)%Z.

(** [t] occurs in [s] as a contiguous block, character for character. *)
Definition occurs_in (t s : str) : Prop := ∃ pre post, s = pre ++ t ++ post.

(** [str.lower] on a string of plain ASCII characters. *)
Definition lower_ascii (s : str) : str := ascii_lower <$> s.



(** The letters A to Z and a to z. *)
Definition ascii_letter (c : ascii) : bool :=
  let n := nat_of_ascii (ascii_lower c) in (97 <=? n) && (n <=? 122).

(** A lower-casing that looks at the position of a letter, as [str.lower]
    does for the Greek capital sigma, which becomes one small letter at the
    end of a word and another anywhere else. The letters S, s and z stand
    for the three sigmas; [after_letter] tells whether a letter precedes. *)
Fixpoint lower_by_position_from (after_letter : bool) (s : str) : str :=
  match s with
  | [] => []
  | c :: rest =>
      let at_end :=
        match rest with
        | [] => true
        | c' :: _ => negb (ascii_letter c')
        end in
      (if bool_decide (c = "S"%char) && after_letter && at_end then "z"%char
       else ascii_lower c)
      :: lower_by_position_from (ascii_letter c) rest
  end.

Definition lower_by_position (s : str) : str :=
  lower_by_position_from false s.

(** ** Concrete records and books *)

(** [Record(Name(name))] followed by [add_phone] and [add_email] calls;
    [obj] tells the new object from the others. *)
Definition new_record (obj : nat) (name : string) (phones emails : list string)
  : ContactRecord :=
  {| rec_obj := obj; rec_id := None; rec_name := py name;
     rec_phones := py <$> phones; rec_emails := py <$> emails |}.

(** Records of one name, one object for every [obj]. *)
Definition jan_no (obj : nat) : ContactRecord :=
  new_record obj "Jan Nowak" [] [].

Definition jan : ContactRecord := jan_no 0.

(** A record whose phone and whose email both contain the term. *)
Definition jan_1 : ContactRecord :=
  new_record 0 "Jan Nowak" ["123456789"] ["jan1@example.com"].

Definition anna : ContactRecord :=
  new_record 0 "Anna Kowalska" ["123456789"] ["Anna.K@example.com"].

Definition ewa : ContactRecord := new_record 1 "Ewa Lis" [] [].

(** A book holding one record that was added first. *)
Definition book_of (record : ContactRecord) : AddressBook :=
  {| data := [(1%Z, set_id record 1)]; next_id := 1; free_ids := ∅ |}.

(** Two records added, nothing deleted. *)
Definition book_two : AddressBook :=
  {| data := [(1, set_id (jan_no 1) 1); (2, set_id (jan_no 2) 2)]%Z;
     next_id := 2; free_ids := ∅ |}.

(** Eight records added, then the records 8 and 1 deleted. *)
Definition book_freed_8_1 : AddressBook :=
  {| data := (λ k, (k, set_id (jan_no (Z.to_nat k)) k)) <$>
               [2; 3; 4; 5; 6; 7]%Z;
     next_id := 8;
     free_ids := {[1%Z; 8%Z]} |}.

(** The object [jan] added twice, the second entry deleted, [ewa] added. *)
Definition book_same_id : AddressBook :=
  {| data := [(1, set_id jan 2); (2, set_id ewa 2)]%Z;
     next_id := 3; free_ids := ∅ |}.

(** Two records, named "ab" and "c". *)
Definition book_ab_c : AddressBook :=
  {| data := [(1, set_id (new_record 1 "ab" [] []) 1);
              (2, set_id (new_record 2 "c" [] []) 2)]%Z;
     next_id := 2; free_ids := ∅ |}.

(** Twelve records added, nothing deleted. *)
Definition book_twelve : AddressBook :=
  {| data := (λ k, (k, set_id (jan_no (Z.to_nat k)) k)) <$>
               [1; 2; 3; 4; 5; 6; 7; 8; 9; 10; 11; 12]%Z;
     next_id := 12; free_ids := ∅ |}.

(** ** Further operations of the address book *)

Section ByName.

Variable lower : str → str.

(** The loop of [find_records_by_name] over [self.data.items()]. *)
Fixpoint by_name_loop (name : str) (items : dict) (matching_records : dict)
  : dict :=
  match items with
  | [] => matching_records
  | (record_id, record) :: rest =>
      if str_in (lower name) (lower (rec_name record)) then
        by_name_loop name rest (matching_records ++ [(record_id, record)])
      else by_name_loop name rest matching_records
  end.

Definition find_records_by_name (book : AddressBook) (name : str) : dict :=
  by_name_loop name (data book) [].

(** Whether [str(record)] returns. [Record.__str__] reads the birthday and,
    through [days_to_birthday], the clock, which are left out here; it
    can raise [ValueError], as when the birthday, a 29 February, cannot be
    moved into the year at hand. *)
Variable str_returns : ContactRecord → bool.

(** How [delete_record] ends: it prints that no name matched, or one of the
    messages of the deletion by identifier, or the [ValueError] of a record
    that cannot be printed leaves the function. *)
Inductive NameMessage :=
  NoMatchingRecords | AfterList (m : Message) | PrintRaised.

(** [delete_record]: [name_to_delete] is the first line typed; the matching
    records are printed one by one; [input] is [int(...)] of the second
    line, [None] when it raises [ValueError]. The second line is only read
    when some name matched and every match was printed. *)
Definition delete_record (book : AddressBook) (name_to_delete : str)
    (input : option Z) : AddressBook * NameMessage :=
  let matching_records := find_records_by_name book name_to_delete in
  match matching_records with
  | [] => (book, NoMatchingRecords)
  | _ :: _ =>
      if forallb (λ kv, str_returns kv.2) matching_records then
        match input with
        | Some record_id_to_delete =>
            if decide (record_id_to_delete ∈ (data book).*1) then
              ({| data := dict_del (data book) record_id_to_delete;
                  next_id := next_id book;
                  free_ids := {[record_id_to_delete]} ∪ free_ids book |},
               AfterList (Deleted record_id_to_delete))
            else (book, AfterList NotFound)
        | None => (book, AfterList InvalidId)
        end
      else (book, PrintRaised)
  end.

End ByName.

(** *** Iteration in groups of five *)

(** [__next__], with [self.current] as [current]: the next group and the
    new cursor, or [None] for [StopIteration]. *)
Definition book_next (book : AddressBook) (current : nat)
  : option (list ContactRecord * nat) :=
  if decide (current < length (data book)) then
    Some (take 5 (drop current (data book).*2), current + 5)
  else None.

(** A [for] loop over the iterator: [__next__] until [StopIteration]. *)
Fixpoint collect_groups (fuel : nat) (book : AddressBook) (current : nat)
  : option (list (list ContactRecord)) :=
  match fuel with
  | O => None
  | S fuel' =>
      match book_next book current with
      | None => Some []
      | Some (records, current') =>
          groups ← collect_groups fuel' book current'; Some (records :: groups)
      end
  end.

(** [list(book)]: [__iter__] sets the cursor to 0; a book of [n] records
    needs at most [n + 1] calls of [__next__]. *)
Definition book_groups (book : AddressBook) : option (list (list ContactRecord)) :=
  collect_groups (length (data book) + 1) book 0.

(** *** [suggest_closest_command] *)

(** [ord]: [TypeError] unless the string has exactly one character. *)
Definition ord (s : str) : option Z :=
  match s with
  | [c] => Some (Z.of_nat (nat_of_ascii c))
  | _ => None
  end.

Definition suggest_closest_command (contact_action : str)
    (available_commands : list str) : option str :=
  py_min (λ x, ox ← ord x; oa ← ord contact_action;
               Some (inject_Z (Z.abs (ox - oa))))
    available_commands.

(** ** Field validation *)

(** The regular expressions of the field classes, built from character
    classes, concatenation, alternation and iteration. *)
Inductive regex : Type :=
  | Void
  | Eps
  | Class (p : ascii → bool)
  | Cat (r1 r2 : regex)
  | Alt (r1 r2 : regex)
  | Star (r : regex).

(** [r+] *)
Definition Plus (r : regex) : regex := Cat r (Star r).

(** [r{n}] *)
Fixpoint Times (n : nat) (r : regex) : regex :=
  match n with
  | O => Eps
  | S n' => Cat r (Times n' r)
  end.

(** The strings a regular expression matches as a whole. *)
Inductive lang : regex → str → Prop :=
  | lang_eps : lang Eps []
  | lang_class p c : p c = true → lang (Class p) [c]
  | lang_cat r1 r2 s1 s2 :
      lang r1 s1 → lang r2 s2 → lang (Cat r1 r2) (s1 ++ s2)
  | lang_alt_l r1 r2 s : lang r1 s → lang (Alt r1 r2) s
  | lang_alt_r r1 r2 s : lang r2 s → lang (Alt r1 r2) s
  | lang_star_nil r : lang (Star r) []
  | lang_star_cons r s1 s2 :
      lang r s1 → lang (Star r) s2 → lang (Star r) (s1 ++ s2).

(** Matching by derivatives: [nullable r] tells whether [r] matches the
    empty string, [deriv c r] matches what [r] matches after a leading [c]. *)
Fixpoint nullable (r : regex) : bool :=
  match r with
  | Void => false
  | Eps => true
  | Class _ => false
  | Cat r1 r2 => nullable r1 && nullable r2
  | Alt r1 r2 => nullable r1 || nullable r2
  | Star _ => true
  end.

Fixpoint deriv (c : ascii) (r : regex) : regex :=
  match r with
  | Void => Void
  | Eps => Void
  | Class p => if p c then Eps else Void
  | Cat r1 r2 =>
      Alt (Cat (deriv c r1) r2) (if nullable r1 then deriv c r2 else Void)
  | Alt r1 r2 => Alt (deriv c r1) (deriv c r2)
  | Star r' => Cat (deriv c r') (Star r')
  end.

Fixpoint accepts (r : regex) (s : str) : bool :=
  match s with
  | [] => nullable r
  | c :: s' => accepts (deriv c r) s'
  end.

(** The line feed. *)
Definition newline : ascii := ascii_of_nat 10.

(** [re.compile("^" body "$").match(value) is not None]: [match] starts at
    the first character, and [$] holds at the end of the string and just
    before a line feed that ends the string. *)
Definition match_anchored (body : regex) (value : str) : bool :=
  accepts body value ||
  match last value with
  | Some c => if decide (c = newline) then accepts body (removelast value)
              else false
  | None => false
  end.

(** The characters from [lo] to [hi]. *)
Definition in_range (lo hi c : ascii) : bool :=
  (nat_of_ascii lo <=? nat_of_ascii c) && (nat_of_ascii c <=? nat_of_ascii hi).

(** [\d] on the characters of the model: the digits 0 to 9. *)
Definition is_digit (c : ascii) : bool := in_range "0" "9" c.

(** [a-zA-Z0-9] *)
Definition is_alnum (c : ascii) : bool :=
  in_range "a" "z" c || in_range "A" "Z" c || in_range "0" "9" c.

(** [[a-zA-Z0-9_.+-]] *)
Definition is_local_char (c : ascii) : bool :=
  is_alnum c || bool_decide (c = "_"%char) || bool_decide (c = "."%char) ||
  bool_decide (c = "+"%char) || bool_decide (c = "-"%char).

(** [[a-zA-Z0-9-]] *)
Definition is_domain_char (c : ascii) : bool :=
  is_alnum c || bool_decide (c = "-"%char).

(** [[a-zA-Z0-9-.]] *)
Definition is_tail_char (c : ascii) : bool :=
  is_alnum c || bool_decide (c = "-"%char) || bool_decide (c = "."%char).

(** [\d{9}] *)
Definition phone_pattern : regex := Times 9 (Class is_digit).

(** [[a-zA-Z0-9_.+-]+@[a-zA-Z0-9-]+\.[a-zA-Z0-9-.]+] *)
Definition email_pattern : regex :=
  Cat (Plus (Class is_local_char))
    (Cat (Class (λ c, bool_decide (c = "@"%char)))
       (Cat (Plus (Class is_domain_char))
          (Cat (Class (λ c, bool_decide (c = "."%char)))
             (Plus (Class is_tail_char))))).

(** [Phone.validate_phone] *)
Definition validate_phone (value : str) : bool :=
  match_anchored phone_pattern value.

(** [Email.validate_email] *)
Definition validate_email (value : str) : bool :=
  match_anchored email_pattern value.

(** [Email(value)]: the value of the new field, or [None] for the
    [ValueError] of a value that does not validate. *)
Definition Email (value : str) : option str :=
  if validate_email value then Some value else None.

(** * Properties *)

Example distance_matrix_ab_cb :
  distance_matrix (py "ab") (py "cb") = Some [[0; 1; 2]; [1; 1; 2]; [2; 2; 1]].
Proof. reflexivity. Qed.

Example levenshtein_kitten :
  levenshtein_distance (py "kitten") (py "sitting") = Some 3.
Proof. reflexivity. Qed.

Example suggest_jon :
  suggest (py "jon") [py "john"; py "anna"; py "jonathan"] = Some (py "john").
Proof. vm_compute. reflexivity. Qed.

(** ** The recurrence *)

Lemma lev_rec_0_l a b j : lev_rec a b 0 j = j.
Proof. reflexivity. Qed.

Lemma lev_rec_0_r a b i : lev_rec a b i 0 = i.
Proof. by destruct i. Qed.

Lemma lev_rec_S a b i j :
  lev_rec a b (S i) (S j) =
  Nat.min (lev_rec a b i (S j) + 1)
    (Nat.min (lev_rec a b (S i) j + 1)
       (lev_rec a b i j + (if decide (a !! i = b !! j) then 0 else 1))).
Proof. reflexivity. Qed.

Lemma lev_rec_sym a b i j : lev_rec a b i j = lev_rec b a j i.
Proof.
  revert j. induction i as [|i IHi]; intros j.
  - by rewrite lev_rec_0_l, lev_rec_0_r.
  - induction j as [|j IHj].
    + by rewrite lev_rec_0_l, lev_rec_0_r.
    + rewrite !lev_rec_S, IHj, !IHi.
      destruct (decide (a !! i = b !! j)), (decide (b !! j = a !! i));
        try congruence; lia.
Qed.

Lemma lev_rec_diag a i : lev_rec a a i i = 0.
Proof.
  induction i as [|i IHi]; [done|].
  rewrite lev_rec_S, IHi. rewrite decide_True by done. lia.
Qed.

Lemma lev_rec_le_max a b i j : lev_rec a b i j ≤ Nat.max i j.
Proof.
  revert j. induction i as [|i IHi]; intros j.
  - rewrite lev_rec_0_l. lia.
  - induction j as [|j IHj].
    + rewrite lev_rec_0_r. lia.
    + rewrite lev_rec_S. specialize (IHi j).
      destruct (decide (a !! i = b !! j)); lia.
Qed.

(** ** The rows of [levenshtein_distance] *)

Lemma rec_row_lookup a b i n k :
  k < n → rec_row a b i n !! k = Some (lev_rec a b i k).
Proof.
  intros Hk. unfold rec_row. rewrite list_lookup_fmap, lookup_seq_lt by done.
  done.
Qed.

Lemma rec_row_S a b i n :
  rec_row a b i (S n) = rec_row a b i n ++ [lev_rec a b i n].
Proof. unfold rec_row. by rewrite seq_S, fmap_app. Qed.

Lemma rec_row_0 a b n : rec_row a b 0 n = seq 0 n.
Proof. unfold rec_row. apply list_fmap_id. Qed.

Lemma subst_cost_lookup (a b : str) i j c1 c2 :
  a !! i = Some c1 → b !! j = Some c2 →
  subst_cost c1 c2 = if decide (a !! i = b !! j) then 0 else 1.
Proof.
  intros -> ->. unfold subst_cost.
  destruct (decide (c1 = c2)), (decide (Some c1 = Some c2)); congruence.
Qed.

Lemma row_loop_rec a b i c1 pre rest :
  a !! i = Some c1 →
  b = pre ++ rest →
  row_loop c1 rest (length pre) (rec_row a b i (S (length b)))
    (rec_row a b (S i) (S (length pre)))
  = Some (rec_row a b (S i) (S (length b))).
Proof.
  intros Hc1. revert pre. induction rest as [|c2 rest IH]; intros pre Hb.
  - rewrite app_nil_r in Hb. by subst pre.
  - assert (b !! length pre = Some c2) as Hc2.
    { subst b. by apply list_lookup_middle. }
    assert (length pre < length b) as Hlt by (by eapply lookup_lt_Some).
    cbn [row_loop].
    rewrite !rec_row_lookup by lia. cbn [mbind option_bind].
    rewrite (subst_cost_lookup a b i (length pre) c1 c2) by done.
    replace (length pre + 1) with (S (length pre)) by lia.
    rewrite <- lev_rec_S, <- rec_row_S.
    specialize (IH (pre ++ [c2])).
    rewrite length_app in IH. cbn [length] in IH.
    replace (length pre + 1) with (S (length pre)) in IH by lia.
    apply IH. by rewrite <- app_assoc.
Qed.

Lemma rows_loop_rec a b pre rest :
  a = pre ++ rest →
  rows_loop rest b (length pre) (rec_row a b (length pre) (S (length b)))
  = Some (rec_row a b (length a) (S (length b))).
Proof.
  revert pre. induction rest as [|c1 rest IH]; intros pre Ha.
  - rewrite app_nil_r in Ha. by subst pre.
  - assert (a !! length pre = Some c1) as Hc1.
    { subst a. by apply list_lookup_middle. }
    cbn [rows_loop].
    pose proof (row_loop_rec a b (length pre) c1 [] b Hc1 eq_refl) as Hrow.
    cbn [length] in Hrow.
    replace (rec_row a b (S (length pre)) 1) with [length pre + 1] in Hrow
      by (unfold rec_row; cbn; f_equal; lia).
    rewrite Hrow. cbn [mbind option_bind].
    specialize (IH (pre ++ [c1])).
    rewrite length_app in IH. cbn [length] in IH.
    replace (length pre + 1) with (S (length pre)) in IH by lia.
    apply IH. by rewrite <- app_assoc.
Qed.

Lemma levenshtein_rows_rec a b :
  levenshtein_rows a b = Some (lev_rec a b (length a) (length b)).
Proof.
  unfold levenshtein_rows. case_decide as Hb.
  - by rewrite Hb, lev_rec_0_r.
  - replace (length b + 1) with (S (length b)) by lia.
    rewrite <- (rec_row_0 a b).
    pose proof (rows_loop_rec a b [] a eq_refl) as Hrows.
    cbn [length] in Hrows. rewrite Hrows. cbn [mbind option_bind].
    rewrite rec_row_S. apply last_snoc.
Qed.

Lemma levenshtein_distance_rec a b :
  levenshtein_distance a b = Some (lev_rec a b (length a) (length b)).
Proof.
  unfold levenshtein_distance. case_decide.
  - by rewrite levenshtein_rows_rec, lev_rec_sym.
  - apply levenshtein_rows_rec.
Qed.

(** ** The table of [weighted_levenshtein_distance] *)

Lemma zero_matrix_dims rows cols : dims (zero_matrix rows cols) rows cols.
Proof.
  split.
  - apply length_replicate.
  - apply Forall_replicate, length_replicate.
Qed.

Lemma get_cell_in_range m rows cols i j :
  dims m rows cols → i < rows → j < cols → is_Some (get_cell m i j).
Proof.
  intros [Hlen Hrows] Hi Hj. unfold get_cell.
  destruct (lookup_lt_is_Some_2 m i) as [row Hrow]; [lia|].
  rewrite Hrow. cbn. apply lookup_lt_is_Some_2.
  rewrite Forall_lookup in Hrows. by rewrite (Hrows _ _ Hrow).
Qed.

Lemma set_cell_in_range m rows cols i j v :
  dims m rows cols → i < rows → j < cols →
  ∃ m', set_cell m i j v = Some m' ∧ dims m' rows cols ∧
        get_cell m' i j = Some v ∧
        ∀ i' j', (i', j') ≠ (i, j) → get_cell m' i' j' = get_cell m i' j'.
Proof.
  intros [Hlen Hrows] Hi Hj. unfold set_cell.
  destruct (lookup_lt_is_Some_2 m i) as [row Hrow]; [lia|].
  assert (length row = cols) as Hrowlen.
  { rewrite Forall_lookup in Hrows. by apply (Hrows _ _ Hrow). }
  rewrite Hrow. cbn. unfold list_set.
  rewrite decide_True by lia. cbn. rewrite decide_True by lia.
  eexists. split; [done|]. split; [|split].
  - split; [by rewrite length_insert|].
    apply Forall_insert; [done|]. by rewrite length_insert.
  - unfold get_cell. rewrite list_lookup_insert_eq by lia. cbn.
    apply list_lookup_insert_eq. lia.
  - intros i' j' Hne. unfold get_cell.
    destruct (decide (i' = i)) as [->|Hi'].
    + rewrite list_lookup_insert_eq by lia. rewrite Hrow. cbn.
      apply list_lookup_insert_ne. congruence.
    + by rewrite list_lookup_insert_ne.
Qed.

(** A loop invariant for [for_each]: [P k] holds before the item at
    position [k] is taken. *)
Lemma for_each_invariant {A St} (P : nat → St → Prop) (xs : list A)
    (body : A → St → option St) (st : St) :
  P 0 st →
  (∀ k x s, xs !! k = Some x → P k s → ∃ s', body x s = Some s' ∧ P (S k) s') →
  ∃ st', for_each xs body st = Some st' ∧ P (length xs) st'.
Proof.
  revert P st. induction xs as [|x xs IH]; intros P st H0 Hstep.
  - by exists st.
  - destruct (Hstep 0 x st eq_refl H0) as (s1 & Hbody & H1).
    cbn [for_each]. rewrite Hbody. cbn [mbind option_bind].
    apply (IH (λ k, P (S k))); [done|].
    intros k y s Hy HP. by apply (Hstep (S k)).
Qed.

Lemma lookup_seq_Some (start len k x : nat) :
  seq start len !! k = Some x → x = start + k ∧ k < len.
Proof. intros H. by apply lookup_seq in H. Qed.

Section Table.

Variables a b : str.

Lemma fill_cell_step k k' m :
  k < length a → k' < length b → table_upto a b k k' m →
  ∃ m', fill_cell a b (1 + k) (1 + k') m = Some m' ∧ table_upto a b k (S k') m'.
Proof.
  intros Hk Hk' [Hdims Hcells]. unfold fill_cell.
  destruct (lookup_lt_is_Some_2 a k) as [c1 Hc1]; [done|].
  destruct (lookup_lt_is_Some_2 b k') as [c2 Hc2]; [done|].
  replace (1 + k - 1) with k by lia. replace (1 + k' - 1) with k' by lia.
  rewrite Hc1, Hc2. cbn [mbind option_bind].
  rewrite (Hcells k (1 + k')), (Hcells (1 + k) k'), (Hcells k k')
    by (unfold filled; lia).
  cbn [mbind option_bind].
  rewrite (subst_cost_lookup a b k k' c1 c2) by done.
  change (1 + k) with (S k). change (1 + k') with (S k').
  rewrite <- lev_rec_S.
  destruct (set_cell_in_range m _ _ (S k) (S k') (lev_rec a b (S k) (S k')) Hdims)
    as (m' & Hset & Hdims' & Hnew & Hold); [lia..|].
  exists m'. split; [done|]. split; [done|].
  intros i j Hi Hj Hfilled.
  destruct (decide ((i, j) = (S k, S k'))) as [[= -> ->]|Hne]; [done|].
  rewrite Hold by done. apply Hcells; [done..|].
  unfold filled in *. destruct (decide (j = S k')); [|lia].
  subst j. destruct Hfilled as [?|[?|[-> ?]]]; [lia..|done].
Qed.

Lemma fill_row_step k m :
  k < length a → table_upto a b k 0 m →
  ∃ m', for_each (seq 1 (length b)) (λ j m', fill_cell a b (1 + k) j m') m
        = Some m' ∧ table_upto a b (S k) 0 m'.
Proof.
  intros Hk Hm.
  destruct (for_each_invariant (λ k', table_upto a b k k') (seq 1 (length b))
              (λ j m', fill_cell a b (1 + k) j m') m Hm) as (m' & Hrun & Hm').
  - intros k' j s Hj Hs. apply lookup_seq_Some in Hj as [-> Hk'].
    by apply fill_cell_step.
  - exists m'. split; [done|]. rewrite length_seq in Hm'.
    destruct Hm' as [Hdims Hcells]. split; [done|].
    intros i j Hi Hj Hfilled. apply Hcells; [done..|].
    unfold filled in *. lia.
Qed.

Lemma first_column_loop m :
  dims m (length a + 1) (length b + 1) →
  ∃ m', for_each (seq 0 (length a + 1)) (λ i m, set_cell m i 0 i) m = Some m' ∧
        dims m' (length a + 1) (length b + 1) ∧
        ∀ i, i ≤ length a → get_cell m' i 0 = Some i.
Proof.
  intros Hdims.
  destruct (for_each_invariant
              (λ k m, dims m (length a + 1) (length b + 1) ∧
                      ∀ i, i < k → get_cell m i 0 = Some i)
              (seq 0 (length a + 1)) (λ i m, set_cell m i 0 i) m)
    as (m' & Hrun & Hdims' & Hcol).
  - split; [done|]. lia.
  - intros k x s Hx [Hd Hc]. apply lookup_seq_Some in Hx as [-> Hk].
    destruct (set_cell_in_range s _ _ (0 + k) 0 (0 + k) Hd)
      as (s' & Hset & Hd' & Hnew & Hold); [lia..|].
    exists s'. split; [done|]. split; [done|].
    intros i Hi. destruct (decide (i = k)) as [->|Hne]; [done|].
    rewrite Hold by (cbn; congruence). apply Hc. lia.
  - exists m'. rewrite length_seq in Hcol. split; [done|]. split; [done|].
    intros i Hi. apply Hcol. lia.
Qed.

Lemma first_row_loop m :
  dims m (length a + 1) (length b + 1) →
  (∀ i, i ≤ length a → get_cell m i 0 = Some i) →
  ∃ m', for_each (seq 0 (length b + 1)) (λ j m, set_cell m 0 j j) m = Some m' ∧
        table_upto a b 0 0 m'.
Proof.
  intros Hdims Hcol.
  destruct (for_each_invariant
              (λ k m, dims m (length a + 1) (length b + 1) ∧
                      (∀ i, i ≤ length a → get_cell m i 0 = Some i) ∧
                      ∀ j, j < k → get_cell m 0 j = Some j)
              (seq 0 (length b + 1)) (λ j m, set_cell m 0 j j) m)
    as (m' & Hrun & Hdims' & Hcol' & Hrow).
  - split; [done|]. split; [done|]. lia.
  - intros k x s Hx (Hd & Hc & Hr). apply lookup_seq_Some in Hx as [-> Hk].
    destruct (set_cell_in_range s _ _ 0 (0 + k) (0 + k) Hd)
      as (s' & Hset & Hd' & Hnew & Hold); [lia..|].
    exists s'. split; [done|]. split; [done|]. split.
    + intros i Hi. destruct (decide (i = 0 ∧ k = 0)) as [[-> ->]|Hne]; [done|].
      rewrite Hold by (cbn; intros [= -> <-]; lia). by apply Hc.
    + intros j Hj. destruct (decide (j = k)) as [->|Hne]; [done|].
      rewrite Hold by (cbn; congruence). apply Hr. lia.
  - exists m'. rewrite length_seq in Hrow. split; [done|]. split; [done|].
    intros i j Hi Hj Hfilled.
    assert (i = 0 ∨ j = 0) as [->| ->] by (unfold filled in *; lia).
    + rewrite lev_rec_0_l. apply Hrow. lia.
    + rewrite lev_rec_0_r. by apply Hcol'.
Qed.

Lemma distance_matrix_rec :
  ∃ m, distance_matrix a b = Some m ∧
       dims m (length a + 1) (length b + 1) ∧
       ∀ i j, i ≤ length a → j ≤ length b →
              get_cell m i j = Some (lev_rec a b i j).
Proof.
  unfold distance_matrix. cbn zeta.
  destruct (first_column_loop (zero_matrix (length a + 1) (length b + 1)))
    as (m1 & -> & Hd1 & Hcol); [apply zero_matrix_dims|].
  cbn [mbind option_bind].
  destruct (first_row_loop m1 Hd1 Hcol) as (m2 & -> & Hm2).
  cbn [mbind option_bind].
  destruct (for_each_invariant (λ k, table_upto a b k 0) (seq 1 (length a))
              (λ i m, for_each (seq 1 (length b))
                        (λ j m', fill_cell a b i j m') m) m2 Hm2)
    as (m3 & Hrun & Hd3 & Hcells).
  - intros k i s Hi Hs. apply lookup_seq_Some in Hi as [-> Hk].
    by apply fill_row_step.
  - exists m3. split; [done|]. split; [done|].
    intros i j Hi Hj. apply Hcells; [done..|].
    rewrite length_seq. unfold filled. lia.
Qed.

End Table.

Lemma rec_table_classic a b m :
  (∀ i j, i ≤ length a → j ≤ length b →
          get_cell m i j = Some (lev_rec a b i j)) →
  classic_table a b m.
Proof.
  intros Hcells. split; [|split].
  - intros i Hi. rewrite Hcells by lia. by rewrite lev_rec_0_r.
  - intros j Hj. by rewrite Hcells by lia.
  - intros i j c1 c2 Hc1 Hc2.
    assert (i < length a) by (by eapply lookup_lt_Some).
    assert (j < length b) by (by eapply lookup_lt_Some).
    exists (lev_rec a b i (S j)), (lev_rec a b (S i) j), (lev_rec a b i j).
    rewrite !Hcells by lia. rewrite lev_rec_S.
    by rewrite (subst_cost_lookup a b i j c1 c2).
Qed.

(** C6: [levenshtein_distance a b], computed row by row, returns the value
    that the full table of [weighted_levenshtein_distance] holds in its last
    cell; the table is built without error, its first row and column hold
    the index and every interior cell is the minimum of the insertion,
    deletion and substitution costs. *)
Theorem levenshtein_distance_refines_table (a b : str) :
  ∃ m d, distance_matrix a b = Some m ∧
         classic_table a b m ∧
         get_cell m (length a) (length b) = Some d ∧
         levenshtein_distance a b = Some d.
Proof.
  destruct (distance_matrix_rec a b) as (m & Hm & _ & Hcells).
  exists m, (lev_rec a b (length a) (length b)).
  split; [done|]. split; [by apply rec_table_classic|].
  split; [by apply Hcells|]. apply levenshtein_distance_rec.
Qed.

(** C7: the distance is symmetric, is zero between a string and itself, and
    between the empty string and [s] it is the length of [s]. *)
Theorem levenshtein_distance_algebra (a b s : str) :
  (∃ d, levenshtein_distance a b = Some d ∧ levenshtein_distance b a = Some d) ∧
  levenshtein_distance a a = Some 0 ∧
  levenshtein_distance [] s = Some (length s) ∧
  levenshtein_distance s [] = Some (length s).
Proof.
  rewrite !levenshtein_distance_rec. split; [|split; [|split]].
  - exists (lev_rec a b (length a) (length b)). split; [done|].
    by rewrite lev_rec_sym.
  - by rewrite lev_rec_diag.
  - done.
  - by rewrite lev_rec_0_r.
Qed.

(** ** The weighted distance *)

Lemma Qnat_le (n k : nat) : n ≤ k → (Qnat n <= Qnat k)%Q.
Proof. intros H. unfold Qnat. rewrite <- Zle_Qle. lia. Qed.

Lemma Qnat_pos (n : nat) : 0 < n → (0 < Qnat n)%Q.
Proof.
  intros H. unfold Qnat. change 0%Q with (inject_Z 0). rewrite <- Zlt_Qlt. lia.
Qed.

Lemma Qnat_ratio_unit (d k : nat) :
  d ≤ k → 0 < k → (0 <= Qnat d / Qnat k)%Q ∧ (Qnat d / Qnat k <= 1)%Q.
Proof.
  intros Hd Hk. pose proof (Qnat_pos k Hk) as Hpos. split.
  - apply Qle_shift_div_l; [done|]. rewrite Qmult_0_l.
    change 0%Q with (Qnat 0). apply Qnat_le. lia.
  - apply Qle_shift_div_r; [done|]. rewrite Qmult_1_l. by apply Qnat_le.
Qed.

(** With both strings non-empty the function divides the distance by the
    longer length, and the quotient lies between 0 and 1. *)
Lemma weighted_levenshtein_distance_nonempty (s1 s2 : str) :
  s1 ≠ [] → s2 ≠ [] →
  ∃ d, levenshtein_distance s1 s2 = Some d ∧
       weighted_levenshtein_distance s1 s2
         = Some (Qnat d / Qnat (Nat.max (length s1) (length s2)))%Q ∧
       (0 <= Qnat d / Qnat (Nat.max (length s1) (length s2)))%Q ∧
       (Qnat d / Qnat (Nat.max (length s1) (length s2)) <= 1)%Q.
Proof.
  intros H1 H2.
  assert (0 < length s1) by (destruct s1; [done|cbn; lia]).
  assert (0 < length s2) by (destruct s2; [done|cbn; lia]).
  exists (lev_rec s1 s2 (length s1) (length s2)).
  split; [apply levenshtein_distance_rec|].
  split.
  - unfold weighted_levenshtein_distance. cbn zeta.
    rewrite !decide_False by lia.
    destruct (distance_matrix_rec s1 s2) as (m & -> & _ & Hcells).
    cbn [mbind option_bind]. by rewrite Hcells.
  - apply Qnat_ratio_unit; [apply lev_rec_le_max|lia].
Qed.

(** With an empty string the function returns the other length as it is. *)
Lemma weighted_levenshtein_distance_empty_l (s : str) :
  weighted_levenshtein_distance [] s = Some (Qnat (length s)).
Proof. reflexivity. Qed.

Lemma weighted_levenshtein_distance_empty_r (s : str) :
  weighted_levenshtein_distance s [] = Some (Qnat (length s)).
Proof.
  unfold weighted_levenshtein_distance. cbn zeta. case_decide as Hs.
  - by rewrite Hs.
  - done.
Qed.

(** C2, at the empty string and "ab": the distance is 2 and the longer length is
    2, but the function returns 2, which is neither 2/2 nor at most 1. *)
Theorem weighted_levenshtein_distance_empty_operand :
  levenshtein_distance [] (py "ab") = Some 2 ∧
  weighted_levenshtein_distance [] (py "ab") = Some (Qnat 2) ∧
  ¬ (Qnat 2 == Qnat 2 / Qnat (Nat.max 0 2))%Q ∧
  ¬ (Qnat 2 <= 1)%Q.
Proof.
  split; [reflexivity|]. split; [reflexivity|]. split.
  - intros H. vm_compute in H. discriminate.
  - intros H. vm_compute in H. by apply H.
Qed.

(** ** The dictionary *)

Lemma dict_set_fresh (d : dict) k v : k ∉ d.*1 → dict_set d k v = d ++ [(k, v)].
Proof.
  induction d as [|[k' v'] d IH]; intros Hk; [done|].
  cbn in *. rewrite not_elem_of_cons in Hk. destruct Hk as [Hne Hk].
  rewrite decide_False by done. by rewrite IH.
Qed.

Lemma dict_del_keys (d : dict) k : (dict_del d k).*1 = filter (λ k', k' ≠ k) d.*1.
Proof.
  unfold dict_del. induction d as [|[k' v'] d IH]; [done|].
  rewrite fmap_cons, !filter_cons. cbn [fst].
  case_decide; [rewrite fmap_cons|]; by rewrite IH.
Qed.

Lemma elem_of_dict_del (d : dict) k kv : kv ∈ dict_del d k ↔ kv ∈ d ∧ kv.1 ≠ k.
Proof. unfold dict_del. rewrite list_elem_of_filter. tauto. Qed.

(** ** The loop of [_get_next_record_id] *)

Lemma size_union_le (X Y : gset Z) : size (X ∪ Y) ≤ size X + size Y.
Proof.
  rewrite size_union_alt.
  assert (size (Y ∖ X) ≤ size Y); [|lia].
  apply subseteq_size. intros x. rewrite elem_of_difference. tauto.
Qed.

Lemma size_list_to_set_le (l : list Z) :
  size (list_to_set l : gset Z) ≤ length l.
Proof.
  induction l as [|x l IH]; [done|].
  cbn. etrans; [apply size_union_le|]. rewrite size_singleton. lia.
Qed.

Lemma elem_of_used_from d free n x :
  x ∈ used_from d free n ↔ (n ≤ x)%Z ∧ (x ∈ d.*1 ∨ x ∈ free).
Proof.
  unfold used_from.
  by rewrite elem_of_filter, elem_of_union, elem_of_list_to_set.
Qed.

Lemma used_from_size d free n :
  size (used_from d free n) ≤ length d + size free.
Proof.
  etrans; [apply (subseteq_size _ (list_to_set d.*1 ∪ free))|].
  - intros x. rewrite elem_of_used_from, elem_of_union, elem_of_list_to_set.
    tauto.
  - etrans; [apply size_union_le|].
    pose proof (size_list_to_set_le d.*1) as Hle.
    rewrite length_fmap in Hle. lia.
Qed.

Lemma skip_used_ids_spec fuel d free n :
  size (used_from d free n) < fuel →
  ∃ n', skip_used_ids fuel d free n = Some n' ∧
        (n ≤ n')%Z ∧ (n' ∉ d.*1) ∧ (n' ∉ free) ∧
        ∀ k, (n ≤ k < n')%Z → k ∈ d.*1 ∨ k ∈ free.
Proof.
  revert n. induction fuel as [|fuel IH]; intros n Hfuel; [lia|].
  cbn [skip_used_ids]. case_decide as Hn.
  - destruct (IH (n + 1)%Z) as (n' & Hrun & Hle & Hd & Hf & Hbelow).
    + assert (used_from d free (n + 1) ⊂ used_from d free n) as Hsub.
      { split.
        - intros x. rewrite !elem_of_used_from. intros [? ?]. split; [lia|done].
        - intros Hsup. specialize (Hsup n).
          rewrite !elem_of_used_from in Hsup.
          destruct Hsup as [? _]; [split; [lia|done]|lia]. }
      apply subset_size in Hsub. lia.
    + exists n'. split; [done|]. split; [lia|]. split; [done|]. split; [done|].
      intros k Hk. destruct (decide (k = n)) as [->|Hne]; [done|].
      apply Hbelow. lia.
  - exists n. split; [done|]. split; [lia|].
    split; [tauto|]. split; [tauto|]. lia.
Qed.

Lemma advance_next_id_spec book :
  ∃ n, advance_next_id book = Some n ∧
       (next_id book ≤ n)%Z ∧ (n ∉ (data book).*1) ∧ (n ∉ free_ids book) ∧
       ∀ k, (next_id book ≤ k < n)%Z → k ∈ (data book).*1 ∨ k ∈ free_ids book.
Proof.
  apply skip_used_ids_spec.
  pose proof (used_from_size (data book) (free_ids book) (next_id book)). lia.
Qed.

(** [_get_next_record_id] always returns. *)
Lemma _get_next_record_id_returns book :
  ∃ i book', _get_next_record_id book i book'.
Proof.
  destruct (advance_next_id_spec book) as (n & Hn & _).
  destruct (decide (free_ids book = ∅)) as [Hempty|Hne].
  - eexists _, _. by apply next_id_fresh.
  - apply set_choose_L in Hne as [x Hx].
    eexists _, _. by eapply next_id_recycled.
Qed.

(** [add_record] always succeeds. *)
Lemma add_record_returns book record : ∃ i book', add_record book record i book'.
Proof.
  destruct (_get_next_record_id_returns book) as (i & book1 & Hnext).
  eexists _, _. by econstructor.
Qed.

(** ** The invariant of the allocator *)

Lemma new_book_inv : book_inv new_book.
Proof.
  split; cbn.
  - constructor.
  - intros k r Hin. by apply elem_of_nil in Hin.
  - intros k Hin. by apply elem_of_empty in Hin.
  - intros k Hin. by apply elem_of_empty in Hin.
  - lia.
  - lia.
Qed.

(** What one call of [_get_next_record_id] does to a book that satisfies
    the invariant. *)
Lemma _get_next_record_id_spec book i book1 :
  book_inv book → _get_next_record_id book i book1 →
  data book1 = data book ∧
  (0 < i)%Z ∧ (i ∉ (data book).*1) ∧
  (1 ≤ next_id book1)%Z ∧
  (∀ k, (0 < k < next_id book1)%Z → k ∈ (data book).*1 ∨ k ∈ free_ids book) ∧
  (i ∈ free_ids book ∧ free_ids book1 = free_ids book ∖ {[i]} ∨
   free_ids book = ∅ ∧ free_ids book1 = ∅ ∧ i = next_id book1).
Proof.
  intros Hinv Hnext.
  destruct (advance_next_id_spec book) as (n & Hn & Hle & Hnd & Hnf & Hbelow).
  assert (∀ k, (0 < k < n)%Z → k ∈ (data book).*1 ∨ k ∈ free_ids book) as Hcov.
  { intros k Hk. destruct (decide (k < next_id book)%Z).
    - apply (inv_below _ Hinv). lia.
    - apply Hbelow. lia. }
  pose proof (inv_next_pos _ Hinv).
  destruct Hnext as [n0 x Hn0 Hx|n0 Hn0 Hempty];
    rewrite Hn in Hn0; injection Hn0 as <-; cbn.
  - split; [done|]. split; [by apply (inv_free_pos _ Hinv)|].
    split; [by apply (inv_disjoint _ Hinv)|]. split; [lia|]. split; [done|].
    by left.
  - split; [done|]. split; [lia|]. split; [done|]. split; [lia|].
    split; [done|]. by right.
Qed.

Lemma stamp_keys record i (d : dict) : (stamp record i d).*1 = d.*1.
Proof.
  unfold stamp. rewrite <- list_fmap_compose. apply list_fmap_ext.
  intros _ [k r] _. cbn. by case_decide.
Qed.

Lemma elem_of_stamp record i (d : dict) k r :
  (k, r) ∈ stamp record i d ↔
  ∃ r0, (k, r0) ∈ d ∧
        r = if decide (rec_obj r0 = rec_obj record) then set_id record i
            else r0.
Proof.
  unfold stamp. rewrite list_elem_of_fmap. split.
  - intros ([k0 r0] & Heq & Hin). cbn in Heq. exists r0.
    case_decide; injection Heq as -> ->; by rewrite ?decide_True, ?decide_False.
  - intros (r0 & Hin & ->). exists (k, r0). split; [|done]. cbn.
    by case_decide.
Qed.

Lemma stamp_unshared record i (d : dict) :
  rec_obj record ∉ rec_obj <$> d.*2 → stamp record i d = d.
Proof.
  intros Hobj. unfold stamp. rewrite <- (list_fmap_id d) at 2.
  apply list_fmap_ext. intros j [k r] Hkr. cbn.
  rewrite decide_False; [done|]. intros Heq. apply Hobj.
  apply list_elem_of_fmap. exists r. split; [done|].
  apply list_elem_of_fmap. exists (k, r). split; [done|].
  by eapply list_elem_of_lookup_2.
Qed.

(** The entries after [add_record]: the old ones, the object passed showing
    its new identifier wherever it was stored, and the new entry last. *)
Lemma add_record_data book record i book' :
  book_inv book → add_record book record i book' →
  data book' =
    stamp record i (data book) ++ [(i, set_id record i)] ∧
  (0 < i)%Z ∧ (i ∉ (data book).*1).
Proof.
  intros Hinv Hadd. destruct Hadd as [i book1 Hnext].
  destruct (_get_next_record_id_spec _ _ _ Hinv Hnext)
    as (Hdata & Hpos & Hfresh & _).
  cbn [data]. rewrite Hdata, dict_set_fresh by (by rewrite stamp_keys).
  done.
Qed.

Lemma add_record_inv book record i book' :
  book_inv book → add_record book record i book' → book_inv book'.
Proof.
  intros Hinv Hadd.
  destruct (add_record_data _ _ _ _ Hinv Hadd) as (Hdata' & Hpos' & Hfresh').
  destruct Hadd as [i book1 Hnext].
  destruct (_get_next_record_id_spec _ _ _ Hinv Hnext)
    as (Hdata & Hpos & Hfresh & Hnpos & Hcov & Hfree).
  cbn [data] in Hdata'.
  split; cbn [data next_id free_ids]; rewrite ?Hdata'.
  - rewrite fmap_app, stamp_keys. cbn. apply NoDup_app. split; [apply Hinv|].
    split; [|apply NoDup_singleton].
    intros k Hk Hk'. apply list_elem_of_singleton in Hk' as ->. done.
  - intros k r Hin. apply elem_of_app in Hin as [Hin|Hin].
    + apply elem_of_stamp in Hin as (r0 & Hin & ->).
      destruct (inv_ids _ Hinv _ _ Hin) as [Hk Hid]. split; [done|].
      case_decide; [by exists i|done].
    + apply list_elem_of_singleton in Hin as [= -> ->]. split; [done|].
      by exists i.
  - intros k Hk. rewrite fmap_app, stamp_keys, elem_of_app. cbn.
    rewrite list_elem_of_singleton.
    destruct Hfree as [[Hi Heq]|(Hempty & Heq & _)]; rewrite Heq in Hk.
    + apply elem_of_difference in Hk as [Hk Hne].
      rewrite elem_of_singleton in Hne.
      intros [Hin| ->]; [|done]. by apply (inv_disjoint _ Hinv k).
    + by apply elem_of_empty in Hk.
  - intros k Hk. apply (inv_free_pos _ Hinv).
    destruct Hfree as [[Hi Heq]|(Hempty & Heq & _)]; rewrite Heq in Hk.
    + by apply elem_of_difference in Hk as [Hk _].
    + by apply elem_of_empty in Hk.
  - done.
  - intros k Hk. rewrite fmap_app, stamp_keys, elem_of_app. cbn.
    rewrite list_elem_of_singleton.
    destruct (Hcov k Hk) as [Hin|Hin]; [by left; left|].
    destruct Hfree as [[Hi Heq]|(Hempty & _ & _)].
    + destruct (decide (k = i)) as [->|Hne]; [by left; right|].
      right. rewrite Heq. apply elem_of_difference.
      by rewrite elem_of_singleton.
    + rewrite Hempty in Hin. by apply elem_of_empty in Hin.
Qed.

Lemma delete_record_by_id_inv book input :
  book_inv book → book_inv (delete_record_by_id book input).1.
Proof.
  intros Hinv. unfold delete_record_by_id.
  destruct input as [record_id|]; [|done].
  case_decide as Hin; [|done]. split; cbn.
  - rewrite dict_del_keys. apply NoDup_filter, Hinv.
  - intros k r Hkr. apply elem_of_dict_del in Hkr as [Hkr _].
    by apply (inv_ids _ Hinv).
  - intros k Hk. rewrite dict_del_keys, list_elem_of_filter.
    apply elem_of_union in Hk as [Hk|Hk].
    + apply elem_of_singleton in Hk as ->. tauto.
    + intros [_ Hin']. by apply (inv_disjoint _ Hinv k).
  - intros k Hk. apply elem_of_union in Hk as [Hk|Hk].
    + apply elem_of_singleton in Hk as ->.
      apply list_elem_of_fmap in Hin as ([k r] & -> & Hkr).
      by apply (inv_ids _ Hinv) in Hkr as [? _].
    + by apply (inv_free_pos _ Hinv).
  - apply Hinv.
  - intros k Hk. rewrite dict_del_keys, list_elem_of_filter, elem_of_union.
    rewrite elem_of_singleton.
    destruct (decide (k = record_id)) as [->|Hne]; [by right; left|].
    destruct (inv_below _ Hinv k Hk); [by left|by right; right].
Qed.

Lemma reachable_inv book : reachable book → book_inv book.
Proof.
  induction 1 as [|book record i book' _ IH Hadd|book input _ IH].
  - apply new_book_inv.
  - by eapply add_record_inv.
  - by apply delete_record_by_id_inv.
Qed.

(** ** Allocation *)

Lemma fresh_id_smallest_unused book i book1 :
  book_inv book → free_ids book = ∅ → _get_next_record_id book i book1 →
  smallest_unused book i ∧ free_ids book1 = ∅.
Proof.
  intros Hinv Hempty Hnext.
  destruct (_get_next_record_id_spec _ _ _ Hinv Hnext)
    as (_ & Hpos & Hfresh & _ & Hcov & Hfree).
  destruct Hfree as [[Hi _]|(_ & Hfree1 & ->)].
  - rewrite Hempty in Hi. by apply elem_of_empty in Hi.
  - split; [|done]. split; [done|]. split; [done|].
    intros k Hk. destruct (Hcov k Hk) as [Hin|Hin]; [done|].
    rewrite Hempty in Hin. by apply elem_of_empty in Hin.
Qed.

Lemma keys_rec_ids (d : dict) :
  (∀ k r, (k, r) ∈ d → rec_id r = Some k) → rec_id <$> d.*2 = Some <$> d.*1.
Proof.
  induction d as [|[k r] d IH]; intros Hids; [done|].
  cbn. rewrite (Hids k r) by apply list_elem_of_here.
  f_equal. apply IH. intros k' r' Hin. apply Hids. by apply list_elem_of_further.
Qed.

Lemma reachable_unshared_reachable book :
  reachable_unshared book → reachable book.
Proof.
  induction 1 as [|book record i book' _ IH _ Hadd|book input _ IH].
  - apply reachable_new.
  - by eapply reachable_add.
  - by apply reachable_delete.
Qed.

Lemma dict_del_values_sublist (d : dict) k :
  sublist (dict_del d k).*2 d.*2.
Proof. unfold dict_del. apply fmap_sublist, sublist_filter. Qed.

Lemma reachable_unshared_inv book :
  reachable_unshared book → unshared_inv book.
Proof.
  induction 1 as [|book record i book' Hreach IH Hobj Hadd|book input Hreach IH].
  - split; cbn.
    + constructor.
    + intros k r Hin. by apply elem_of_nil in Hin.
  - apply reachable_unshared_reachable, reachable_inv in Hreach.
    destruct (add_record_data _ _ _ _ Hreach Hadd) as (Hdata & _ & _).
    rewrite stamp_unshared in Hdata by done.
    split; rewrite Hdata.
    + rewrite !fmap_app. cbn. apply NoDup_app. split; [apply IH|].
      split; [|apply NoDup_singleton].
      intros obj Hin Heq. apply list_elem_of_singleton in Heq as ->. done.
    + intros k r Hin. apply elem_of_app in Hin as [Hin|Hin].
      * by apply (unshared_ids _ IH).
      * by apply list_elem_of_singleton in Hin as [= -> ->].
  - unfold delete_record_by_id. destruct input as [record_id|]; [|done].
    case_decide; [|done]. split; cbn.
    + eapply sublist_NoDup; [apply IH|].
      apply fmap_sublist, dict_del_values_sublist.
    + intros k r Hin. apply elem_of_dict_del in Hin as [Hin _].
      by apply (unshared_ids _ IH).
Qed.

(** C4, as the code has it: after any sequence of [add_record] and
    [delete_record_by_id] from a new book the keys are pairwise distinct and
    positive, every stored record holds a positive identifier, and no
    released identifier is a key; where no [add_record] was given an object
    that the book held, every stored record holds its key, so the
    identifiers held are pairwise distinct too. *)
Theorem live_ids_positive_disjoint (book : AddressBook) :
  reachable book →
  NoDup (data book).*1 ∧
  (∀ k r, (k, r) ∈ data book →
          (0 < k)%Z ∧ ∃ i, rec_id r = Some i ∧ (0 < i)%Z) ∧
  (∀ k, k ∈ free_ids book → k ∉ (data book).*1) ∧
  (reachable_unshared book →
   (∀ k r, (k, r) ∈ data book → rec_id r = Some k) ∧
   NoDup (rec_id <$> (data book).*2)).
Proof.
  intros Hinv%reachable_inv. split; [apply Hinv|]. split; [|split].
  - apply Hinv.
  - apply Hinv.
  - intros Hunshared%reachable_unshared_inv.
    split; [apply Hunshared|].
    rewrite keys_rec_ids by apply Hunshared.
    apply (NoDup_fmap_2 _), Hinv.
Qed.

(** C10: in a reachable book every positive integer below [next_id] is a key
    or a released identifier; hence with [free_ids] empty
    [_get_next_record_id] returns, and returns the smallest positive integer
    that is not a key. *)
Theorem ids_below_next_id_accounted (book : AddressBook) :
  reachable book →
  (∀ k, (0 < k < next_id book)%Z → k ∈ (data book).*1 ∨ k ∈ free_ids book) ∧
  (free_ids book = ∅ →
   (∃ i book', _get_next_record_id book i book') ∧
   ∀ i book', _get_next_record_id book i book' → smallest_unused book i).
Proof.
  intros Hinv%reachable_inv. split; [apply Hinv|].
  intros Hempty. split; [apply _get_next_record_id_returns|].
  intros i book' Hnext.
  by destruct (fresh_id_smallest_unused _ _ _ Hinv Hempty Hnext).
Qed.

(** C3, as the code has it: in a reachable book [add_record] always assigns
    an identifier and stores the record under it; with released identifiers
    at hand the identifier is one of them, whichever [set.pop] picks, and
    leaves the pool; with none it is the smallest positive integer that is
    not a key. *)
Theorem add_record_recycles_or_extends (book : AddressBook)
    (record : ContactRecord) :
  reachable book →
  (∃ i book', add_record book record i book') ∧
  ∀ i book', add_record book record i book' →
    (i, set_id record i) ∈ data book' ∧
    (free_ids book ≠ ∅ →
     i ∈ free_ids book ∧ free_ids book' = free_ids book ∖ {[i]}) ∧
    (free_ids book = ∅ → smallest_unused book i ∧ free_ids book' = ∅).
Proof.
  intros Hinv%reachable_inv. split; [apply add_record_returns|].
  intros i book' Hadd.
  destruct (add_record_data _ _ _ _ Hinv Hadd) as (Hdata' & _ & _).
  split.
  { rewrite Hdata'. apply elem_of_app. right. apply list_elem_of_here. }
  destruct Hadd as [i book1 Hnext].
  destruct (_get_next_record_id_spec _ _ _ Hinv Hnext)
    as (Hdata & _ & Hfresh & _ & _ & Hfree).
  cbn. split.
  - intros Hne. by destruct Hfree as [?|[? _]].
  - intros Hempty. by apply fresh_id_smallest_unused.
Qed.

(** C9: deleting an identifier that is not a key prints the not-found
    message and returns the book as it was. *)
Theorem delete_absent_id_unchanged (book : AddressBook) (record_id : Z) :
  record_id ∉ (data book).*1 →
  delete_record_by_id book (Some record_id) = (book, NotFound).
Proof. intros Habsent. unfold delete_record_by_id. by rewrite decide_False. Qed.

(** ** Concrete books *)

Lemma add_record_fresh book record n :
  advance_next_id book = Some n → free_ids book = ∅ →
  add_record book record n
    {| data := dict_set (stamp record n (data book)) n
                 (set_id record n);
       next_id := n; free_ids := free_ids book |}.
Proof.
  intros Hn Hempty.
  apply (add_record_intro book record n
           {| data := data book; next_id := n; free_ids := free_ids book |}).
  by apply next_id_fresh.
Qed.

Lemma reachable_add_fresh book record n :
  reachable book → advance_next_id book = Some n → free_ids book = ∅ →
  reachable {| data := dict_set (stamp record n (data book)) n
                         (set_id record n);
               next_id := n; free_ids := free_ids book |}.
Proof.
  intros Hreach Hn Hempty.
  apply (reachable_add book record n); [done|]. by apply add_record_fresh.
Qed.

Lemma unshared_add_fresh book record n :
  reachable_unshared book →
  rec_obj record ∉ rec_obj <$> (data book).*2 →
  advance_next_id book = Some n → free_ids book = ∅ →
  reachable_unshared
    {| data := dict_set (stamp record n (data book)) n
                 (set_id record n);
       next_id := n; free_ids := free_ids book |}.
Proof.
  intros Hreach Hobj Hn Hempty.
  apply (unshared_add book record n); [done..|]. by apply add_record_fresh.
Qed.

(** One more record added to a book with no released identifier. *)
Ltac add_unshared H record :=
  eapply (unshared_add_fresh _ record) in H;
  [|apply (bool_decide_unpack _); vm_compute; exact I
   |vm_compute; reflexivity|reflexivity].

Lemma unshared_book_freed_8_1 : reachable_unshared book_freed_8_1.
Proof.
  pose proof unshared_new as H.
  add_unshared H (jan_no 1). add_unshared H (jan_no 2).
  add_unshared H (jan_no 3). add_unshared H (jan_no 4).
  add_unshared H (jan_no 5). add_unshared H (jan_no 6).
  add_unshared H (jan_no 7). add_unshared H (jan_no 8).
  apply (unshared_delete _ (Some 8%Z)) in H.
  apply (unshared_delete _ (Some 1%Z)) in H.
  exact H.
Qed.

Lemma reachable_book_freed_8_1 : reachable book_freed_8_1.
Proof. apply reachable_unshared_reachable, unshared_book_freed_8_1. Qed.

(** C3, as stated, fails: with the identifiers 1 and 8 released, [add_record]
    may hand out 8 (CPython's [set.pop] does: 8 sits in the first slot of the
    hash table), which is not the minimum of the pool. *)
Lemma recycled_id_not_minimum :
  reachable book_freed_8_1 ∧
  ¬ (∀ i book',
       add_record book_freed_8_1 jan i book' →
       free_ids book_freed_8_1 ≠ ∅ →
       is_minimum (free_ids book_freed_8_1) i ∧
       free_ids book' = free_ids book_freed_8_1 ∖ {[i]}).
Proof.
  split; [apply reachable_book_freed_8_1|].
  intros Hclaim.
  assert (add_record book_freed_8_1 jan 8
            {| data := dict_set (data book_freed_8_1) 8 (set_id jan 8);
               next_id := 9;
               free_ids := free_ids book_freed_8_1 ∖ {[8%Z]} |}) as Hadd.
  { assert (_get_next_record_id book_freed_8_1 8
              {| data := data book_freed_8_1; next_id := 9;
                 free_ids := free_ids book_freed_8_1 ∖ {[8%Z]} |}) as Hnext.
    { apply next_id_recycled; [vm_compute; reflexivity|].
      cbn. apply elem_of_union. right. by apply elem_of_singleton. }
    exact (add_record_intro book_freed_8_1 jan 8 _ Hnext). }
  destruct (Hclaim _ _ Hadd) as [[_ Hmin] _].
  - intros Hempty. apply (not_elem_of_empty (C := gset Z) 1%Z).
    rewrite <- Hempty. cbn. apply elem_of_union. left. by apply elem_of_singleton.
  - specialize (Hmin 1%Z). cbn in Hmin.
    assert (8 ≤ 1)%Z; [|lia].
    apply Hmin. apply elem_of_union. left. by apply elem_of_singleton.
Qed.

Lemma add_record_recycles_or_extends_witness :
  reachable book_freed_8_1 ∧
  (∃ i book', add_record book_freed_8_1 jan i book') ∧
  ∀ i book', add_record book_freed_8_1 jan i book' →
    (i, set_id jan i) ∈ data book' ∧
    (free_ids book_freed_8_1 ≠ ∅ →
     i ∈ free_ids book_freed_8_1 ∧
     free_ids book' = free_ids book_freed_8_1 ∖ {[i]}) ∧
    (free_ids book_freed_8_1 = ∅ →
     smallest_unused book_freed_8_1 i ∧ free_ids book' = ∅).
Proof.
  split; [apply reachable_book_freed_8_1|].
  apply (add_record_recycles_or_extends book_freed_8_1 jan).
  apply reachable_book_freed_8_1.
Defined.

Lemma live_ids_positive_disjoint_witness :
  reachable book_freed_8_1 ∧ reachable_unshared book_freed_8_1 ∧
  NoDup (data book_freed_8_1).*1 ∧
  (∀ k r, (k, r) ∈ data book_freed_8_1 →
          (0 < k)%Z ∧ ∃ i, rec_id r = Some i ∧ (0 < i)%Z) ∧
  (∀ k, k ∈ free_ids book_freed_8_1 → k ∉ (data book_freed_8_1).*1) ∧
  (∀ k r, (k, r) ∈ data book_freed_8_1 → rec_id r = Some k) ∧
  NoDup (rec_id <$> (data book_freed_8_1).*2).
Proof.
  split; [apply reachable_book_freed_8_1|].
  split; [apply unshared_book_freed_8_1|].
  destruct (live_ids_positive_disjoint book_freed_8_1
              reachable_book_freed_8_1) as (Hkeys & Hids & Hfree & Hunshared).
  split; [exact Hkeys|]. split; [exact Hids|]. split; [exact Hfree|].
  exact (Hunshared unshared_book_freed_8_1).
Defined.

Lemma reachable_book_same_id : reachable book_same_id.
Proof.
  pose proof reachable_new as H.
  apply (reachable_add_fresh _ jan 1) in H; [|reflexivity..].
  apply (reachable_add_fresh _ (set_id jan 1) 2) in H;
    [|vm_compute; reflexivity|reflexivity].
  apply (reachable_delete _ (Some 2%Z)) in H.
  eapply (reachable_add _ ewa 2) in H; [exact H|].
  match goal with
  | |- add_record ?b _ _ _ =>
      assert (_get_next_record_id b 2
                {| data := data b; next_id := 3;
                   free_ids := free_ids b ∖ {[2%Z]} |}) as Hnext
  end.
  { apply next_id_recycled; [vm_compute; reflexivity|].
    apply elem_of_union. left. by apply elem_of_singleton. }
  exact (add_record_intro _ ewa 2 _ Hnext).
Qed.

(** C4, as stated, fails: the object [jan] is added twice and its second
    entry deleted, then [ewa] is added and receives the released identifier
    2, the one that [jan], still stored under 1, has held since it was added
    again. Two stored records hold the identifier 2, and the record under
    the key 1 does not hold 1. *)
Lemma shared_object_same_id :
  reachable book_same_id ∧
  (1%Z, set_id jan 2) ∈ data book_same_id ∧
  (2%Z, set_id ewa 2) ∈ data book_same_id ∧
  rec_obj (set_id jan 2) ≠ rec_obj (set_id ewa 2) ∧
  rec_id (set_id jan 2) = rec_id (set_id ewa 2) ∧
  ¬ NoDup (rec_id <$> (data book_same_id).*2) ∧
  ¬ (∀ k r, (k, r) ∈ data book_same_id → rec_id r = Some k).
Proof.
  split; [apply reachable_book_same_id|].
  split; [apply list_elem_of_here|].
  split; [apply list_elem_of_further, list_elem_of_here|].
  split; [discriminate|]. split; [reflexivity|]. split.
  - cbn. intros Hnodup. apply NoDup_cons in Hnodup as [Hnotin _].
    apply Hnotin, list_elem_of_here.
  - intros Hids. specialize (Hids 1%Z (set_id jan 2) (list_elem_of_here _ _)).
    discriminate.
Qed.

Lemma unshared_book_two : reachable_unshared book_two.
Proof.
  pose proof unshared_new as H.
  add_unshared H (jan_no 1). add_unshared H (jan_no 2).
  exact H.
Qed.

Lemma reachable_book_two : reachable book_two.
Proof. apply reachable_unshared_reachable, unshared_book_two. Qed.

Lemma ids_below_next_id_accounted_witness :
  reachable book_two ∧ free_ids book_two = ∅ ∧
  (∀ k, (0 < k < next_id book_two)%Z →
        k ∈ (data book_two).*1 ∨ k ∈ free_ids book_two) ∧
  (∃ i book', _get_next_record_id book_two i book') ∧
  ∀ i book', _get_next_record_id book_two i book' → smallest_unused book_two i.
Proof.
  split; [apply reachable_book_two|]. split; [reflexivity|].
  destruct (ids_below_next_id_accounted book_two reachable_book_two)
    as [Hbelow Hfresh].
  split; [exact Hbelow|]. apply Hfresh. reflexivity.
Defined.

Lemma delete_absent_id_unchanged_witness :
  (9 ∉ (data book_freed_8_1).*1)%Z ∧
  delete_record_by_id book_freed_8_1 (Some 9%Z) = (book_freed_8_1, NotFound).
Proof.
  assert (9 ∉ (data book_freed_8_1).*1)%Z as Habsent.
  { apply (bool_decide_unpack _). vm_compute. exact I. }
  split; [exact Habsent|].
  apply (delete_absent_id_unchanged book_freed_8_1 9 Habsent).
Defined.

(** ** Search *)

Lemma starts_with_prefix t s : starts_with t s = true ↔ ∃ post, s = t ++ post.
Proof.
  revert s. induction t as [|c t IH]; intros s.
  - cbn. split; [intros _; by exists s|done].
  - destruct s as [|c' s]; cbn.
    + split; [done|]. intros [post Hpost]. discriminate.
    + case_decide as Hc.
      * subst c'. rewrite IH. split.
        -- intros [post ->]. by exists post.
        -- intros [post [= ->]]. by exists post.
      * split; [done|]. intros [post [= -> _]]. done.
Qed.

Lemma str_in_occurs t s : str_in t s = true ↔ occurs_in t s.
Proof.
  unfold occurs_in. induction s as [|c s IH].
  - cbn. rewrite orb_false_r, starts_with_prefix. split.
    + intros [post ->]. by exists [], post.
    + intros (pre & post & Heq). destruct pre; [by exists post|discriminate].
  - cbn [str_in]. rewrite orb_true_iff, starts_with_prefix, IH. split.
    + intros [[post ->]|(pre & post & ->)].
      * by exists [], post.
      * by exists (c :: pre), post.
    + intros (pre & post & Heq). destruct pre as [|c' pre].
      * left. by exists post.
      * right. injection Heq as -> ->. by exists pre, post.
Qed.

Section SearchProperties.

Variable lower : str → str.

Lemma scan_values_existsb term values record found :
  scan_values term values record found =
  found ++ (if existsb (str_in term) values then [record] else []).
Proof.
  induction values as [|v values IH]; cbn.
  - by rewrite app_nil_r.
  - destruct (str_in term v); [done|]. apply IH.
Qed.

Lemma find_loop_matches term records found :
  find_loop lower term records found =
  found ++ (records ≫= matches_of lower term).
Proof.
  revert found. induction records as [|r records IH]; intros found.
  - cbn. by rewrite app_nil_r.
  - cbn [find_loop]. rewrite bind_cons. unfold matches_of at 1.
    destruct (str_in (lower term) (lower (rec_name r))).
    + rewrite IH. by rewrite <- app_assoc.
    + rewrite IH, !scan_values_existsb. by rewrite <- !app_assoc.
Qed.

Lemma find_record_matches book term :
  find_record lower book term = (data book).*2 ≫= matches_of lower term.
Proof. unfold find_record. by rewrite find_loop_matches. Qed.

Lemma existsb_str_in term values :
  existsb (str_in term) values = true ↔ ∃ v, v ∈ values ∧ occurs_in term v.
Proof.
  rewrite existsb_exists. split.
  - intros (v & Hin & Hv). exists v. split; [by apply list_elem_of_In|].
    by apply str_in_occurs.
  - intros (v & Hin & Hv). exists v. split; [by apply list_elem_of_In|].
    by apply str_in_occurs.
Qed.

Lemma elem_of_matches_of term record r :
  r ∈ matches_of lower term record ↔
  r = record ∧
  (occurs_in (lower term) (lower (rec_name record)) ∨
   (∃ phone, phone ∈ rec_phones record ∧ occurs_in term phone) ∨
   (∃ email, email ∈ rec_emails record ∧ occurs_in term email)).
Proof.
  unfold matches_of.
  rewrite <- (str_in_occurs (lower term)), <- !existsb_str_in.
  destruct (str_in (lower term) (lower (rec_name record)));
    destruct (existsb (str_in term) (rec_phones record));
    destruct (existsb (str_in term) (rec_emails record)); cbn;
    rewrite ?elem_of_cons, ?elem_of_nil; intuition (auto; discriminate).
Qed.





Lemma count_occ_matches_of term record r :
  count_occ ContactRecord_eq_dec (matches_of lower term record) r =
  if decide (record = r) then length (matches_of lower term record) else 0.
Proof.
  unfold matches_of.
  destruct (str_in (lower term) (lower (rec_name record)));
    destruct (existsb (str_in term) (rec_phones record));
    destruct (existsb (str_in term) (rec_emails record));
    cbn [app count_occ length];
    destruct (ContactRecord_eq_dec record r); case_decide; congruence.
Qed.

Lemma count_occ_bind_matches term records r :
  count_occ ContactRecord_eq_dec (records ≫= matches_of lower term) r =
  count_occ ContactRecord_eq_dec records r * length (matches_of lower term r).
Proof.
  induction records as [|x records IH]; [done|].
  rewrite bind_cons, count_occ_app, count_occ_matches_of, IH.
  cbn [count_occ].
  destruct (ContactRecord_eq_dec x r) as [->|Hne].
  - rewrite decide_True by done. lia.
  - by rewrite decide_False.
Qed.

(** How often a record is returned: for every key it is stored under, once
    when its name matches, and otherwise once for its phones and once more
    for its emails. *)
Lemma find_record_multiplicity (book : AddressBook) (term : str)
    (r : ContactRecord) :
  count_occ ContactRecord_eq_dec (find_record lower book term) r =
  count_occ ContactRecord_eq_dec (data book).*2 r *
  (if str_in (lower term) (lower (rec_name r)) then 1
   else (if existsb (str_in term) (rec_phones r) then 1 else 0) +
        (if existsb (str_in term) (rec_emails r) then 1 else 0)).
Proof.
  rewrite find_record_matches, count_occ_bind_matches. f_equal.
  unfold matches_of.
  destruct (str_in (lower term) (lower (rec_name r))); [done|].
  rewrite length_app.
  by destruct (existsb (str_in term) (rec_phones r)),
              (existsb (str_in term) (rec_emails r)).
Qed.

End SearchProperties.

Lemma unshared_book_of record : reachable_unshared (book_of record).
Proof.
  apply (unshared_add_fresh new_book record 1 unshared_new);
    [|reflexivity..].
  cbn. apply not_elem_of_nil.
Qed.

Lemma reachable_book_of record : reachable (book_of record).
Proof. apply reachable_unshared_reachable, unshared_book_of. Qed.


Lemma lower_by_position_values :
  lower_by_position (py "S") = py "s" ∧ lower_by_position (py "AS") = py "az".
Proof. split; reflexivity. Qed.


(** The example of the specification: both spellings find the record. *)
Example find_record_anna :
  find_record lower_ascii (book_of anna) (py "anna") = [set_id anna 1] ∧
  find_record lower_ascii (book_of anna) (py "ANNA") = [set_id anna 1].
Proof. split; reflexivity. Qed.

(** An email is matched on its exact characters only. *)
Example find_record_email_case :
  find_record lower_ascii (book_of anna) (py "Anna.K@") = [set_id anna 1] ∧
  find_record lower_ascii (book_of anna) (py "anna.k@") = [].
Proof. split; reflexivity. Qed.

(** C1, at the book holding [jan_1] and the term "1": the name does not
    match, the phone loop appends the record and breaks, and the email loop
    appends it again: the record is returned twice. *)
Theorem find_record_phone_and_email_twice :
  reachable (book_of jan_1) ∧
  find_record lower_ascii (book_of jan_1) (py "1")
    = [set_id jan_1 1; set_id jan_1 1] ∧
  count_occ ContactRecord_eq_dec
    (find_record lower_ascii (book_of jan_1) (py "1")) (set_id jan_1 1) = 2.
Proof.
  split; [apply reachable_book_of|]. split; [reflexivity|].
  vm_compute. reflexivity.
Qed.

(** ** Suggestions *)

Lemma weighted_levenshtein_distance_returns (s1 s2 : str) :
  is_Some (weighted_levenshtein_distance s1 s2).
Proof.
  unfold weighted_levenshtein_distance. cbn zeta.
  case_decide; [done|]. case_decide; [done|].
  destruct (distance_matrix_rec s1 s2) as (m & -> & _ & Hcells).
  cbn [mbind option_bind]. by rewrite Hcells.
Qed.

(** The loop of [min]: [best] is the first item of the least key among the
    items seen, [pre] the items before it and [mid] those after it. *)
Lemma min_loop_first_min key pre best bk mid rest :
  key best = Some bk →
  (∀ x kx, x ∈ pre → key x = Some kx → (bk < kx)%Q) →
  (∀ x kx, x ∈ mid → key x = Some kx → (bk <= kx)%Q) →
  (∀ x, x ∈ rest → is_Some (key x)) →
  ∃ pre' c kc post,
    min_loop key best bk rest = Some c ∧ key c = Some kc ∧
    pre ++ best :: mid ++ rest = pre' ++ c :: post ∧
    (∀ x kx, x ∈ pre' → key x = Some kx → (kc < kx)%Q) ∧
    (∀ x kx, x ∈ post → key x = Some kx → (kc <= kx)%Q).
Proof.
  revert pre best bk mid.
  induction rest as [|x rest IH]; intros pre best bk mid Hbest Hpre Hmid Hkeys.
  - exists pre, best, bk, mid. by rewrite app_nil_r.
  - destruct (Hkeys x) as [k Hk]; [apply list_elem_of_here|].
    assert (∀ y, y ∈ rest → is_Some (key y)) as Hkeys'.
    { intros y Hy. apply Hkeys. by apply list_elem_of_further. }
    cbn [min_loop]. rewrite Hk. cbn [mbind option_bind].
    destruct (Qlt_le_dec k bk) as [Hlt|Hle].
    + destruct (IH (pre ++ best :: mid) x k [] Hk) as
        (pre' & c & kc & post & Hrun & Hc & Heq & Hbefore & Hafter).
      * intros y ky Hy Hky. apply elem_of_app in Hy as [Hy|Hy].
        -- eapply Qlt_trans; [exact Hlt|]. by eapply Hpre.
        -- apply elem_of_cons in Hy as [->|Hy].
           ++ rewrite Hbest in Hky. by injection Hky as <-.
           ++ eapply Qlt_le_trans; [exact Hlt|]. by eapply Hmid.
      * intros y ky Hy. by apply elem_of_nil in Hy.
      * done.
      * exists pre', c, kc, post. split; [done|]. split; [done|].
        split; [|done]. rewrite <- Heq. by rewrite <- app_assoc.
    + destruct (IH pre best bk (mid ++ [x]) Hbest Hpre) as
        (pre' & c & kc & post & Hrun & Hc & Heq & Hbefore & Hafter).
      * intros y ky Hy Hky. apply elem_of_app in Hy as [Hy|Hy].
        -- by eapply Hmid.
        -- apply list_elem_of_singleton in Hy as ->.
           rewrite Hk in Hky. by injection Hky as <-.
      * done.
      * exists pre', c, kc, post. split; [done|]. split; [done|].
        split; [|done]. rewrite <- Heq. by rewrite <- app_assoc.
Qed.

(** [suggest] returns the first candidate whose key, the value of
    [weighted_levenshtein_distance], is the least: the keys before it are
    strictly greater, the keys after it are not smaller. *)
Lemma suggest_first_least_key (search_term : str) (candidates : list str) :
  candidates ≠ [] →
  ∃ pre c kc post,
    suggest search_term candidates = Some c ∧
    candidates = pre ++ c :: post ∧
    weighted_levenshtein_distance search_term c = Some kc ∧
    (∀ x kx, x ∈ pre →
             weighted_levenshtein_distance search_term x = Some kx →
             (kc < kx)%Q) ∧
    (∀ x kx, x ∈ post →
             weighted_levenshtein_distance search_term x = Some kx →
             (kc <= kx)%Q).
Proof.
  intros Hne. destruct candidates as [|x rest]; [done|].
  unfold suggest, py_min.
  destruct (weighted_levenshtein_distance_returns search_term x) as [k Hk].
  rewrite Hk. cbn [mbind option_bind].
  destruct (min_loop_first_min
              (λ y, weighted_levenshtein_distance search_term y)
              [] x k [] rest Hk)
    as (pre' & c & kc & post & Hrun & Hc & Heq & Hbefore & Hafter).
  - intros y ky Hy. by apply elem_of_nil in Hy.
  - intros y ky Hy. by apply elem_of_nil in Hy.
  - intros y _. apply weighted_levenshtein_distance_returns.
  - by exists pre', c, kc, post.
Qed.

(** [min] of an empty sequence raises. *)
Lemma suggest_no_candidates (search_term : str) :
  suggest search_term [] = None.
Proof. reflexivity. Qed.

Lemma reachable_book_ab_c : reachable book_ab_c.
Proof.
  apply reachable_unshared_reachable.
  pose proof unshared_new as H.
  add_unshared H (new_record 1 "ab" [] []).
  add_unshared H (new_record 2 "c" [] []).
  exact H.
Qed.

(** C5, at the empty query and the candidates "ab", "c": both candidates are
    at distance [len]/[len] = 1 of the query, so the first, "ab", is the
    first of least normalized distance; the keys the code compares are 2 and
    1, and it returns "c". *)
Theorem suggest_empty_query_picks_shorter :
  reachable book_ab_c ∧
  all_search_terms book_ab_c = [py "ab"; py "c"] ∧
  levenshtein_distance [] (py "ab") = Some 2 ∧
  levenshtein_distance [] (py "c") = Some 1 ∧
  (Qnat 2 / Qnat (Nat.max 0 2) == Qnat 1 / Qnat (Nat.max 0 1))%Q ∧
  weighted_levenshtein_distance [] (py "ab") = Some (Qnat 2) ∧
  weighted_levenshtein_distance [] (py "c") = Some (Qnat 1) ∧
  suggest_correction_search [] book_ab_c = Some (py "c").
Proof.
  split; [apply reachable_book_ab_c|].
  repeat split; vm_compute; reflexivity.
Qed.

(** * Further properties *)

(** ** Bounds and zero of the distance *)

Lemma lev_rec_ge_diff a b i j : i - j ≤ lev_rec a b i j ∧ j - i ≤ lev_rec a b i j.
Proof.
  revert j. induction i as [|i IHi]; intros j.
  - rewrite lev_rec_0_l. lia.
  - induction j as [|j IHj].
    + rewrite lev_rec_0_r. lia.
    + rewrite lev_rec_S.
      pose proof (IHi j). pose proof (IHi (S j)).
      destruct (decide (a !! i = b !! j)); lia.
Qed.

Lemma lev_rec_zero_take a b i j :
  i ≤ length a → j ≤ length b → lev_rec a b i j = 0 → take i a = take j b.
Proof.
  revert j. induction i as [|i IHi]; intros j Hi Hj Hzero.
  - rewrite lev_rec_0_l in Hzero. by subst j.
  - destruct j as [|j]; [by rewrite lev_rec_0_r in Hzero|].
    rewrite lev_rec_S in Hzero.
    destruct (decide (a !! i = b !! j)) as [Heq|Hne]; [|lia].
    destruct (lookup_lt_is_Some_2 a i) as [c Hc]; [lia|].
    rewrite (take_S_r a i c Hc).
    rewrite Heq in Hc. rewrite (take_S_r b j c Hc).
    f_equal. apply IHi; lia.
Qed.

Lemma lev_rec_zero_eq a b : lev_rec a b (length a) (length b) = 0 → a = b.
Proof.
  intros Hzero. apply lev_rec_zero_take in Hzero; [|done..].
  by rewrite !firstn_all in Hzero.
Qed.

(** X1: the distance of two strings is at least the difference of their
    lengths and at most the longer length. *)
Theorem levenshtein_distance_bounds (a b : str) :
  ∃ d, levenshtein_distance a b = Some d ∧
       length a - length b ≤ d ∧ length b - length a ≤ d ∧
       d ≤ Nat.max (length a) (length b).
Proof.
  exists (lev_rec a b (length a) (length b)).
  split; [apply levenshtein_distance_rec|].
  pose proof (lev_rec_ge_diff a b (length a) (length b)).
  pose proof (lev_rec_le_max a b (length a) (length b)). lia.
Qed.

(** X2: the distance is zero exactly between equal strings. *)
Theorem levenshtein_distance_zero_iff (a b : str) :
  levenshtein_distance a b = Some 0 ↔ a = b.
Proof.
  rewrite levenshtein_distance_rec. split.
  - intros [= Hzero]. by apply lev_rec_zero_eq.
  - intros ->. by rewrite lev_rec_diag.
Qed.

(** X3: the weighted distance does not depend on the order of its
    arguments. *)
Theorem weighted_levenshtein_distance_sym (s1 s2 : str) :
  weighted_levenshtein_distance s1 s2 = weighted_levenshtein_distance s2 s1.
Proof.
  destruct (decide (s1 = [])) as [->|H1].
  { by rewrite weighted_levenshtein_distance_empty_l,
               weighted_levenshtein_distance_empty_r. }
  destruct (decide (s2 = [])) as [->|H2].
  { by rewrite weighted_levenshtein_distance_empty_l,
               weighted_levenshtein_distance_empty_r. }
  destruct (weighted_levenshtein_distance_nonempty s1 s2 H1 H2)
    as (d & Hd & -> & _).
  destruct (weighted_levenshtein_distance_nonempty s2 s1 H2 H1)
    as (d' & Hd' & -> & _).
  rewrite levenshtein_distance_rec in Hd, Hd'.
  rewrite lev_rec_sym in Hd'. rewrite Hd in Hd'. injection Hd' as <-.
  by rewrite Nat.max_comm.
Qed.

(** X4: with both strings non-empty the weighted distance is the distance
    divided by the longer length, a value between 0 and 1. *)
Theorem weighted_levenshtein_distance_normalised (s1 s2 : str) :
  s1 ≠ [] → s2 ≠ [] →
  ∃ d, levenshtein_distance s1 s2 = Some d ∧
       weighted_levenshtein_distance s1 s2
         = Some (Qnat d / Qnat (Nat.max (length s1) (length s2)))%Q ∧
       (0 <= Qnat d / Qnat (Nat.max (length s1) (length s2)))%Q ∧
       (Qnat d / Qnat (Nat.max (length s1) (length s2)) <= 1)%Q.
Proof.
  intros H1 H2.
  assert (0 < length s1) by (destruct s1; [done|cbn; lia]).
  assert (0 < length s2) by (destruct s2; [done|cbn; lia]).
  pose proof (lev_rec_le_max s1 s2 (length s1) (length s2)) as Hmax.
  exists (lev_rec s1 s2 (length s1) (length s2)).
  split; [apply levenshtein_distance_rec|]. split.
  - unfold weighted_levenshtein_distance. cbn zeta.
    rewrite !decide_False by lia.
    destruct (distance_matrix_rec s1 s2) as (m & -> & _ & Hcells).
    cbn [mbind option_bind]. by rewrite Hcells.
  - apply Qnat_ratio_unit; [done|lia].
Qed.

Lemma weighted_levenshtein_distance_normalised_witness :
  ∃ d, levenshtein_distance (py "jon") (py "john") = Some d ∧
       weighted_levenshtein_distance (py "jon") (py "john")
         = Some (Qnat d / Qnat (Nat.max 3 4))%Q ∧
       (0 <= Qnat d / Qnat (Nat.max 3 4))%Q ∧
       (Qnat d / Qnat (Nat.max 3 4) <= 1)%Q.
Proof.
  apply (weighted_levenshtein_distance_normalised (py "jon") (py "john"));
    discriminate.
Defined.

(** ** Adding and deleting *)

Lemma dict_del_length (d : dict) k :
  NoDup d.*1 → k ∈ d.*1 → length (dict_del d k) + 1 = length d.
Proof.
  unfold dict_del. induction d as [|[k' v] d IH]; intros Hnodup Hin.
  - by apply elem_of_nil in Hin.
  - rewrite fmap_cons in Hnodup, Hin. cbn [fst] in Hnodup, Hin.
    apply NoDup_cons in Hnodup as [Hk' Hnodup].
    rewrite filter_cons. cbn [fst].
    apply elem_of_cons in Hin as [->|Hin].
    + rewrite decide_False by (intros Hne; by apply Hne).
      assert (filter (λ kv : Z * ContactRecord, kv.1 ≠ k') d = d) as ->; [|cbn; lia].
      clear IH Hnodup. induction d as [|[k2 v2] d IH]; [done|].
      rewrite fmap_cons, not_elem_of_cons in Hk'. destruct Hk' as [Hne Hk'].
      rewrite filter_cons. cbn [fst] in *.
      rewrite decide_True by done. by rewrite IH.
    + rewrite decide_True by (intros ->; done). cbn [length].
      specialize (IH Hnodup Hin). lia.
Qed.

(** X5: in a reachable book, deleting the identifier of a stored record
    removes that one entry and no other, keeps the order of the rest and the
    counter, and puts the identifier into the released pool. *)
Theorem delete_present_id_effect (book : AddressBook) (record_id : Z) :
  reachable book → record_id ∈ (data book).*1 →
  ∃ book', delete_record_by_id book (Some record_id) = (book', Deleted record_id) ∧
           data book' = filter (λ kv, kv.1 ≠ record_id) (data book) ∧
           (record_id ∉ (data book').*1) ∧
           length (data book') + 1 = length (data book) ∧
           free_ids book' = {[record_id]} ∪ free_ids book ∧
           next_id book' = next_id book.
Proof.
  intros Hinv%reachable_inv Hin. unfold delete_record_by_id.
  rewrite decide_True by done. eexists. split; [done|]. cbn.
  split; [done|]. split; [|split; [|done]].
  - rewrite dict_del_keys, list_elem_of_filter. tauto.
  - apply dict_del_length; [apply Hinv|done].
Qed.

Lemma delete_present_id_effect_witness :
  ∃ book', delete_record_by_id book_two (Some 1%Z) = (book', Deleted 1) ∧
           data book' = filter (λ kv, kv.1 ≠ 1%Z) (data book_two) ∧
           (1%Z ∉ (data book').*1) ∧
           length (data book') + 1 = length (data book_two) ∧
           free_ids book' = {[1%Z]} ∪ free_ids book_two ∧
           next_id book' = next_id book_two.
Proof.
  apply (delete_present_id_effect book_two 1 reachable_book_two).
  apply list_elem_of_here.
Defined.

(** X6: in a reachable book [add_record] always returns; the identifier it
    assigns is positive and not a key, and its entry comes after the keys
    already there; an object that the book does not hold leaves the entries
    as they are, an object that it holds shows the new identifier under each
    of its keys; the counter is never lowered. *)
Theorem add_record_appends (book : AddressBook) (record : ContactRecord) :
  reachable book →
  (∃ i book', add_record book record i book') ∧
  ∀ i book', add_record book record i book' →
    (0 < i)%Z ∧ (i ∉ (data book).*1) ∧
    data book' =
      stamp record i (data book) ++ [(i, set_id record i)] ∧
    (data book').*1 = (data book).*1 ++ [i] ∧
    (rec_obj record ∉ rec_obj <$> (data book).*2 →
     data book' = data book ++ [(i, set_id record i)]) ∧
    (next_id book ≤ next_id book')%Z.
Proof.
  intros Hinv%reachable_inv. split; [apply add_record_returns|].
  intros i book' Hadd.
  destruct (add_record_data _ _ _ _ Hinv Hadd) as (Hdata & Hpos & Hfresh).
  split; [done|]. split; [done|]. split; [done|]. split; [|split].
  - rewrite Hdata, fmap_app, stamp_keys. done.
  - intros Hobj. by rewrite Hdata, stamp_unshared.
  - destruct Hadd as [i book1 Hnext].
    destruct (advance_next_id_spec book) as (n & Hn & Hle & _).
    destruct Hnext as [n0 x Hn0 _|n0 Hn0 _]; cbn;
      rewrite Hn in Hn0; by injection Hn0 as <-.
Qed.

Lemma add_record_appends_witness :
  reachable book_two ∧
  (∃ i book', add_record book_two jan i book') ∧
  ∀ i book', add_record book_two jan i book' →
    (0 < i)%Z ∧ (i ∉ (data book_two).*1) ∧
    data book' =
      stamp jan i (data book_two) ++ [(i, set_id jan i)] ∧
    (data book').*1 = (data book_two).*1 ++ [i] ∧
    (rec_obj jan ∉ rec_obj <$> (data book_two).*2 →
     data book' = data book_two ++ [(i, set_id jan i)]) ∧
    (next_id book_two ≤ next_id book')%Z.
Proof.
  split; [apply reachable_book_two|].
  apply (add_record_appends book_two jan reachable_book_two).
Defined.

(** X7: in a reachable book with no released identifier, after the deletion
    of a stored record [add_record] returns, gives the record passed the
    identifier just deleted and stores it under that key after the keys that
    were left; the pool is empty again. *)
Theorem delete_then_add_reuses_id (book : AddressBook) (record_id : Z)
    (record : ContactRecord) :
  reachable book → free_ids book = ∅ → record_id ∈ (data book).*1 →
  (∃ i book',
     add_record (delete_record_by_id book (Some record_id)).1 record i book') ∧
  ∀ i book',
    add_record (delete_record_by_id book (Some record_id)).1 record i book' →
    i = record_id ∧ free_ids book' = ∅ ∧
    (data book').*1 = filter (λ k, k ≠ record_id) (data book).*1 ++ [i] ∧
    (i, set_id record i) ∈ data book'.
Proof.
  intros Hreach Hempty Hin. split; [apply add_record_returns|].
  intros i book' Hadd.
  pose proof (reachable_delete book (Some record_id) Hreach) as Hreach1.
  apply reachable_inv in Hreach1.
  destruct (add_record_data _ _ _ _ Hreach1 Hadd) as (Hdata' & _ & _).
  revert Hadd Hreach1 Hdata'. unfold delete_record_by_id.
  rewrite decide_True by done. cbn [fst data]. intros Hadd Hinv1 Hdata'.
  destruct Hadd as [i book1 Hnext].
  destruct (_get_next_record_id_spec _ _ _ Hinv1 Hnext)
    as (Hdata & _ & Hfresh & _ & _ & Hfree).
  cbn [data next_id free_ids] in *. rewrite Hempty in Hfree.
  destruct Hfree as [[Hi Hfree1]|[Hcontra _]].
  - rewrite (right_id_L ∅ (∪)) in Hi, Hfree1.
    apply elem_of_singleton in Hi as ->.
    split; [done|]. split; [by rewrite Hfree1, difference_diag_L|].
    rewrite Hdata'. split.
    + by rewrite fmap_app, stamp_keys, dict_del_keys.
    + apply elem_of_app. right. apply list_elem_of_here.
  - exfalso. apply (not_elem_of_empty (C := gset Z) record_id).
    rewrite <- Hcontra. apply elem_of_union. left. by apply elem_of_singleton.
Qed.

Lemma delete_then_add_reuses_id_witness :
  (∃ i book',
     add_record (delete_record_by_id book_two (Some 1%Z)).1 jan i book') ∧
  ∀ i book',
    add_record (delete_record_by_id book_two (Some 1%Z)).1 jan i book' →
    i = 1%Z ∧ free_ids book' = ∅ ∧
    (data book').*1 = filter (λ k, k ≠ 1%Z) (data book_two).*1 ++ [i] ∧
    (i, set_id jan i) ∈ data book'.
Proof.
  assert (1%Z ∈ (data book_two).*1) as Hin by apply list_elem_of_here.
  exact (delete_then_add_reuses_id book_two 1 jan reachable_book_two
           eq_refl Hin).
Defined.

(** ** Search by name and deletion by name *)

Section ByNameProperties.

Variable lower : str → str.

Lemma by_name_loop_filter name items matching :
  by_name_loop lower name items matching =
  matching ++
  filter (λ kv, str_in (lower name) (lower (rec_name kv.2)) = true) items.
Proof.
  revert matching. induction items as [|[k r] items IH]; intros matching.
  - cbn. by rewrite app_nil_r.
  - cbn [by_name_loop]. rewrite filter_cons. cbn [snd].
    destruct (str_in (lower name) (lower (rec_name r))) eqn:Hname.
    + rewrite decide_True by done. rewrite IH. by rewrite <- app_assoc.
    + rewrite decide_False by (by intros ?). apply IH.
Qed.

Lemma find_records_by_name_filter book name :
  find_records_by_name lower book name =
  filter (λ kv, str_in (lower name) (lower (rec_name kv.2)) = true) (data book).
Proof. unfold find_records_by_name. by rewrite by_name_loop_filter. Qed.

(** X8: in a reachable book [find_records_by_name] returns the entries of
    the store whose lower-cased name contains the lower-cased argument, in
    the order of the store and every key once; where no object is stored
    twice, every record returned holds the identifier it is returned with. *)
Theorem find_records_by_name_exact (book : AddressBook) (name : str) :
  reachable book →
  sublist (find_records_by_name lower book name) (data book) ∧
  NoDup (find_records_by_name lower book name).*1 ∧
  (∀ k r, (k, r) ∈ find_records_by_name lower book name ↔
          (k, r) ∈ data book ∧
          occurs_in (lower name) (lower (rec_name r))) ∧
  (reachable_unshared book →
   ∀ k r, (k, r) ∈ find_records_by_name lower book name → rec_id r = Some k).
Proof.
  intros Hreach. pose proof (reachable_inv _ Hreach) as Hinv.
  rewrite find_records_by_name_filter.
  split; [apply sublist_filter|]. split; [|split].
  - assert (sublist
              (filter (λ kv : Z * ContactRecord,
                         str_in (lower name) (lower (rec_name kv.2)) = true)
                 (data book)).*1 (data book).*1) as Hsub
      by apply fmap_sublist, sublist_filter.
    exact (sublist_NoDup _ _ (inv_keys_nodup _ Hinv) Hsub).
  - intros k r. rewrite list_elem_of_filter. cbn [snd].
    rewrite str_in_occurs. tauto.
  - intros Hunshared%reachable_unshared_inv k r Hin.
    apply list_elem_of_filter in Hin as [_ Hin].
    by apply (unshared_ids _ Hunshared).
Qed.

(** X9: a record that [find_records_by_name] returns for a term is returned
    by [find_record] for the same term once for every key it is stored
    under: exactly once where no object is stored twice. *)
Theorem by_name_found_per_key (book : AddressBook) (term : str) (k : Z)
    (r : ContactRecord) :
  (k, r) ∈ find_records_by_name lower book term →
  count_occ ContactRecord_eq_dec (find_record lower book term) r =
  count_occ ContactRecord_eq_dec (data book).*2 r ∧
  (reachable_unshared book →
   count_occ ContactRecord_eq_dec (find_record lower book term) r = 1).
Proof.
  intros Hin. rewrite find_records_by_name_filter in Hin.
  apply list_elem_of_filter in Hin as [Hname Hin]. cbn [snd] in Hname.
  rewrite find_record_multiplicity, Hname, Nat.mul_1_r.
  split; [done|].
  intros Hunshared%reachable_unshared_inv.
  apply NoDup_count_occ'.
  - apply NoDup_ListNoDup, (NoDup_fmap_1 rec_obj), Hunshared.
  - apply list_elem_of_In, list_elem_of_fmap. by exists (k, r).
Qed.

Variable str_returns : ContactRecord → bool.

Lemma delete_record_no_match (book : AddressBook) (name : str)
    (input : option Z) :
  find_records_by_name lower book name = [] →
  delete_record lower str_returns book name input = (book, NoMatchingRecords).
Proof. intros Hnone. unfold delete_record. by rewrite Hnone. Qed.

Lemma delete_record_print_raises (book : AddressBook) (name : str)
    (input : option Z) :
  find_records_by_name lower book name ≠ [] →
  forallb (λ kv, str_returns kv.2) (find_records_by_name lower book name)
    = false →
  delete_record lower str_returns book name input = (book, PrintRaised).
Proof.
  intros Hsome Hraise. unfold delete_record. cbn zeta. rewrite Hraise.
  by destruct (find_records_by_name lower book name).
Qed.

Lemma delete_record_some_match (book : AddressBook) (name : str)
    (input : option Z) :
  find_records_by_name lower book name ≠ [] →
  forallb (λ kv, str_returns kv.2) (find_records_by_name lower book name)
    = true →
  delete_record lower str_returns book name input =
  ((delete_record_by_id book input).1,
   AfterList (delete_record_by_id book input).2).
Proof.
  intros Hsome Hprint. unfold delete_record, delete_record_by_id. cbn zeta.
  rewrite Hprint.
  destruct (find_records_by_name lower book name); [done|].
  destruct input as [record_id|]; [|done]. by case_decide.
Qed.

(** X10: [delete_record] leaves the book as it is when no name matches;
    when a matching record cannot be printed, the error leaves the function
    before anything is deleted; otherwise it does what [delete_record_by_id]
    does with the identifier typed: it deletes any stored record of that
    identifier, whether its name matched or not. *)
Theorem delete_record_cases (book : AddressBook) (name : str)
    (input : option Z) :
  (find_records_by_name lower book name = [] ∧
   delete_record lower str_returns book name input
   = (book, NoMatchingRecords)) ∨
  (find_records_by_name lower book name ≠ [] ∧
   (∃ k r, (k, r) ∈ find_records_by_name lower book name ∧
           str_returns r = false) ∧
   delete_record lower str_returns book name input = (book, PrintRaised)) ∨
  (find_records_by_name lower book name ≠ [] ∧
   (∀ k r, (k, r) ∈ find_records_by_name lower book name →
           str_returns r = true) ∧
   delete_record lower str_returns book name input =
   ((delete_record_by_id book input).1,
    AfterList (delete_record_by_id book input).2)).
Proof.
  destruct (decide (find_records_by_name lower book name = [])) as [Hnone|Hsome].
  { left. split; [done|]. by apply delete_record_no_match. }
  right.
  destruct (forallb (λ kv, str_returns kv.2)
              (find_records_by_name lower book name)) eqn:Hprint.
  - right. split; [done|]. split; [|by apply delete_record_some_match].
    intros k r Hin. rewrite forallb_forall in Hprint.
    apply (Hprint (k, r)). by apply list_elem_of_In.
  - left. split; [done|]. split; [|by apply delete_record_print_raises].
    apply not_true_iff_false in Hprint.
    destruct (decide (Exists (λ kv : Z * ContactRecord,
                                str_returns kv.2 = false)
                        (find_records_by_name lower book name)))
      as [Hex|Hnex].
    + apply Exists_exists in Hex as ([k r] & Hin & Hr). by exists k, r.
    + exfalso. apply Hprint. apply forallb_forall. intros [k r] Hin.
      apply list_elem_of_In in Hin.
      destruct (str_returns r) eqn:Hr; [done|].
      exfalso. apply Hnex. apply Exists_exists. by exists (k, r).
Qed.

(** X11: [delete_record] keeps a reachable book reachable, so that what
    holds after [add_record] and [delete_record_by_id] holds after it as
    well; and it stores no object twice if none was. *)
Theorem delete_record_reachable (book : AddressBook) (name : str)
    (input : option Z) :
  reachable book →
  reachable (delete_record lower str_returns book name input).1 ∧
  (reachable_unshared book →
   reachable_unshared (delete_record lower str_returns book name input).1).
Proof.
  intros Hreach.
  destruct (decide (find_records_by_name lower book name = [])) as [Hnone|Hsome].
  { by rewrite delete_record_no_match. }
  destruct (forallb (λ kv, str_returns kv.2)
              (find_records_by_name lower book name)) eqn:Hprint.
  - rewrite delete_record_some_match by done. cbn [fst].
    split; [by apply reachable_delete|]. intros Hunshared.
    by apply unshared_delete.
  - by rewrite delete_record_print_raises.
Qed.

End ByNameProperties.

Lemma find_records_by_name_exact_witness :
  sublist (find_records_by_name lower_ascii (book_of anna) (py "KOWAL"))
    (data (book_of anna)) ∧
  NoDup (find_records_by_name lower_ascii (book_of anna) (py "KOWAL")).*1 ∧
  (∀ k r,
     (k, r) ∈ find_records_by_name lower_ascii (book_of anna) (py "KOWAL") ↔
     (k, r) ∈ data (book_of anna) ∧
     occurs_in (lower_ascii (py "KOWAL")) (lower_ascii (rec_name r))) ∧
  (reachable_unshared (book_of anna) →
   ∀ k r,
     (k, r) ∈ find_records_by_name lower_ascii (book_of anna) (py "KOWAL") →
     rec_id r = Some k).
Proof.
  exact (find_records_by_name_exact lower_ascii (book_of anna) (py "KOWAL")
           (reachable_book_of anna)).
Defined.

Lemma by_name_found_per_key_witness :
  count_occ ContactRecord_eq_dec
    (find_record lower_ascii (book_of anna) (py "KOWAL")) (set_id anna 1) =
  count_occ ContactRecord_eq_dec (data (book_of anna)).*2 (set_id anna 1) ∧
  (reachable_unshared (book_of anna) →
   count_occ ContactRecord_eq_dec
     (find_record lower_ascii (book_of anna) (py "KOWAL")) (set_id anna 1) = 1).
Proof.
  apply (by_name_found_per_key lower_ascii (book_of anna) (py "KOWAL") 1
           (set_id anna 1)).
  vm_compute. apply list_elem_of_here.
Defined.

Lemma delete_record_reachable_witness :
  reachable
    (delete_record lower_ascii (λ _, true) (book_of anna) (py "anna")
       (Some 1%Z)).1 ∧
  (reachable_unshared (book_of anna) →
   reachable_unshared
     (delete_record lower_ascii (λ _, true) (book_of anna) (py "anna")
        (Some 1%Z)).1).
Proof.
  exact (delete_record_reachable lower_ascii (λ _, true) (book_of anna)
           (py "anna") (Some 1%Z) (reachable_book_of anna)).
Defined.

(** A record that cannot be printed stops [delete_record] before the
    identifier is read: nothing is deleted, although the identifier typed is
    that of a stored record; a name that matches nothing never gets to the
    printing. *)
Example delete_record_print_error :
  delete_record lower_ascii (λ _, false) (book_of anna) (py "anna")
    (Some 1%Z) = (book_of anna, PrintRaised) ∧
  delete_record lower_ascii (λ _, false) (book_of anna) (py "ewa")
    (Some 1%Z) = (book_of anna, NoMatchingRecords) ∧
  (delete_record lower_ascii (λ _, true) (book_of anna) (py "anna")
     (Some 1%Z)).2 = AfterList (Deleted 1).
Proof. repeat split; reflexivity. Qed.

(** ** Iteration in groups of five *)

Lemma collect_groups_spec book fuel current :
  length (data book) - current < fuel →
  ∃ groups,
    collect_groups fuel book current = Some groups ∧
    concat groups = drop current (data book).*2 ∧
    length (data book) - current ≤ 5 * length groups ∧
    5 * length groups < length (data book) - current + 5 ∧
    ∀ i g, groups !! i = Some g →
           g = take 5 (drop (current + 5 * i) (data book).*2) ∧
           1 ≤ length g ≤ 5 ∧
           (S i < length groups → length g = 5).
Proof.
  revert current. induction fuel as [|fuel IH]; intros current Hfuel; [lia|].
  cbn [collect_groups]. unfold book_next. case_decide as Hcur.
  - destruct (IH (current + 5)) as (groups & -> & Hconcat & Hlo & Hhi & Hgroups);
      [lia|].
    cbn [mbind option_bind]. eexists. split; [done|].
    assert (length (take 5 (drop current (data book).*2)) =
            Nat.min 5 (length (data book) - current)) as Hlen.
    { by rewrite length_take, length_drop, length_fmap. }
    split; [|split; [|split]].
    + cbn [concat]. rewrite Hconcat, <- drop_drop. apply take_drop.
    + cbn [length]. lia.
    + cbn [length]. lia.
    + intros [|i] g Hg.
      * injection Hg as <-. rewrite Nat.mul_0_r, Nat.add_0_r.
        split; [done|]. rewrite Hlen. split; [lia|].
        cbn [length]. intros Hmore. lia.
      * cbn in Hg. destruct (Hgroups i g Hg) as (-> & Hsize & Hfull).
        split; [f_equal; f_equal; lia|]. split; [done|].
        cbn [length]. intros Hmore. apply Hfull. lia.
  - exists []. split; [done|]. cbn [concat length].
    split; [|split; [lia|split; [lia|]]].
    + rewrite drop_ge; [done|]. rewrite length_fmap. lia.
    + intros i g Hg. by rewrite lookup_nil in Hg.
Qed.

(** X12: iterating over a book ends, and the groups it yields, put one after
    the other, are the stored records in the order of the store: no record
    is skipped and none comes twice. *)
Theorem book_groups_cover (book : AddressBook) :
  ∃ groups, book_groups book = Some groups ∧
            concat groups = (data book).*2.
Proof.
  destruct (collect_groups_spec book (length (data book) + 1) 0)
    as (groups & Hrun & Hconcat & _); [lia|].
  exists groups. split; [done|]. by rewrite Hconcat.
Qed.

(** X13: the [i]-th group holds the five records from position [5 * i] on,
    or those that are left; every group has between one and five records,
    every group but the last has five, and a book of [n] records gives
    [n / 5] groups rounded up (none for an empty book). *)
Theorem book_groups_sizes (book : AddressBook) :
  ∃ groups, book_groups book = Some groups ∧
    length (data book) ≤ 5 * length groups ∧
    5 * length groups < length (data book) + 5 ∧
    ∀ i g, groups !! i = Some g →
           g = take 5 (drop (5 * i) (data book).*2) ∧
           1 ≤ length g ≤ 5 ∧
           (S i < length groups → length g = 5).
Proof.
  destruct (collect_groups_spec book (length (data book) + 1) 0)
    as (groups & Hrun & _ & Hlo & Hhi & Hgroups); [lia|].
  exists groups. split; [done|]. split; [lia|]. split; [lia|]. done.
Qed.

(** Twelve records come in groups of 5, 5 and 2. *)
Example book_groups_twelve :
  option_map (map (length (A := ContactRecord))) (book_groups book_twelve)
  = Some [5; 5; 2].
Proof. reflexivity. Qed.

(** ** [min] and its errors *)

Lemma min_loop_is_Some key best bk rest :
  is_Some (min_loop key best bk rest) ↔ Forall (λ x, is_Some (key x)) rest.
Proof.
  revert best bk. induction rest as [|x rest IH]; intros best bk.
  - cbn. split; [by constructor|by eexists].
  - cbn [min_loop]. rewrite Forall_cons. destruct (key x) as [k|] eqn:Hk.
    + cbn [mbind option_bind].
      destruct (Qlt_le_dec k bk); rewrite IH; split;
        try (intros H; split; [by eexists|done]); by intros [_ ?].
    + cbn. split; [intros [? [=]]|intros [[? [=]] _]].
Qed.

Lemma py_min_is_Some key xs :
  is_Some (py_min key xs) ↔ xs ≠ [] ∧ Forall (λ x, is_Some (key x)) xs.
Proof.
  destruct xs as [|x rest]; cbn [py_min].
  - split; [intros [? [=]]|by intros [? _]].
  - rewrite Forall_cons. destruct (key x) as [k|] eqn:Hk.
    + cbn [mbind option_bind]. rewrite min_loop_is_Some. split.
      * intros H. split; [done|]. split; [by eexists|done].
      * by intros [_ [_ ?]].
    + cbn. split; [intros [? [=]]|intros [_ [[? [=]] _]]].
Qed.

(** ** [suggest_closest_command] *)

Lemma ord_is_Some (s : str) : is_Some (ord s) ↔ length s = 1.
Proof.
  destruct s as [|c [|c' s]]; cbn; split; try done;
    try (intros [? [=]]); by eexists.
Qed.

Lemma ord_inj (s1 s2 : str) o : ord s1 = Some o → ord s2 = Some o → s1 = s2.
Proof.
  destruct s1 as [|c1 [|? ?]]; [done| |done].
  destruct s2 as [|c2 [|? ?]]; [done| |done].
  cbn. intros [= <-] [= Heq]. apply Nat2Z.inj in Heq.
  f_equal. rewrite <- (ascii_nat_embedding c1), <- (ascii_nat_embedding c2).
  by rewrite Heq.
Qed.

(** X14: [suggest_closest_command] returns a command exactly when there is
    at least one command and the action and every command are single
    characters; otherwise [min] or [ord] raises. *)
Theorem suggest_closest_command_returns_iff (contact_action : str)
    (available_commands : list str) :
  is_Some (suggest_closest_command contact_action available_commands) ↔
  available_commands ≠ [] ∧ length contact_action = 1 ∧
  Forall (λ x, length x = 1) available_commands.
Proof.
  unfold suggest_closest_command. rewrite py_min_is_Some.
  split.
  - intros [Hne Hkeys]. split; [done|].
    destruct available_commands as [|x rest]; [done|].
    split.
    + apply Forall_cons in Hkeys as [[k Hk] _].
      apply ord_is_Some. destruct (ord x); [|done].
      cbn in Hk. destruct (ord contact_action); [by eexists|done].
    + eapply Forall_impl; [exact Hkeys|]. intros y [k Hk].
      apply ord_is_Some. destruct (ord y); [by eexists|done].
  - intros (Hne & Haction & Hcommands). split; [done|].
    eapply Forall_impl; [exact Hcommands|]. intros y Hy.
    apply ord_is_Some in Hy as [oy ->]. apply ord_is_Some in Haction as [oa ->].
    by eexists.
Qed.

Lemma py_min_first_least (key : str → option Q) (xs : list str) :
  xs ≠ [] → Forall (λ x, is_Some (key x)) xs →
  ∃ pre c kc post,
    py_min key xs = Some c ∧ xs = pre ++ c :: post ∧ key c = Some kc ∧
    (∀ x kx, x ∈ pre → key x = Some kx → (kc < kx)%Q) ∧
    (∀ x kx, x ∈ post → key x = Some kx → (kc <= kx)%Q).
Proof.
  intros Hne Hkeys. destruct xs as [|x rest]; [done|].
  apply Forall_cons in Hkeys as [[k Hk] Hrest].
  unfold py_min. rewrite Hk. cbn [mbind option_bind].
  destruct (min_loop_first_min key [] x k [] rest Hk)
    as (pre & c & kc & post & Hrun & Hc & Heq & Hbefore & Hafter).
  - intros y ky Hy. by apply elem_of_nil in Hy.
  - intros y ky Hy. by apply elem_of_nil in Hy.
  - by apply Forall_forall.
  - by exists pre, c, kc, post.
Qed.

(** X15: among single-character commands [suggest_closest_command] returns
    the first one whose character code is nearest to that of the action: the
    commands before it are strictly farther, those after it not nearer. *)
Theorem suggest_closest_command_first_nearest (contact_action : str)
    (available_commands : list str) :
  available_commands ≠ [] → length contact_action = 1 →
  Forall (λ x, length x = 1) available_commands →
  ∃ pre c post oa oc,
    suggest_closest_command contact_action available_commands = Some c ∧
    available_commands = pre ++ c :: post ∧
    ord contact_action = Some oa ∧ ord c = Some oc ∧
    (∀ x ox, x ∈ pre → ord x = Some ox →
             (Z.abs (oc - oa) < Z.abs (ox - oa))%Z) ∧
    (∀ x ox, x ∈ post → ord x = Some ox →
             (Z.abs (oc - oa) ≤ Z.abs (ox - oa))%Z).
Proof.
  intros Hne Haction Hcommands.
  apply ord_is_Some in Haction as [oa Hoa].
  unfold suggest_closest_command. rewrite Hoa.
  destruct (py_min_first_least
              (λ y, oy ← ord y; oa' ← Some oa;
                    Some (inject_Z (Z.abs (oy - oa'))))
              available_commands Hne)
    as (pre & c & kc & post & Hrun & Heq & Hc & Hbefore & Hafter).
  - eapply Forall_impl; [exact Hcommands|]. intros y Hy.
    apply ord_is_Some in Hy as [oy ->]. by eexists.
  - destruct (ord c) as [oc|] eqn:Hoc; [|done].
    cbn in Hc. injection Hc as <-.
    exists pre, c, post, oa, oc. split; [exact Hrun|]. split; [done|].
    split; [done|]. split; [done|]. split.
    + intros y oy Hy Hoy. rewrite Zlt_Qlt. apply (Hbefore y); [done|].
      by rewrite Hoy.
    + intros y oy Hy Hoy. rewrite Zle_Qle. apply (Hafter y); [done|].
      by rewrite Hoy.
Qed.

(** X16: an action that is one of the single-character commands is returned
    as it is. *)
Theorem suggest_closest_command_known (contact_action : str)
    (available_commands : list str) :
  contact_action ∈ available_commands →
  Forall (λ x, length x = 1) available_commands →
  suggest_closest_command contact_action available_commands
  = Some contact_action.
Proof.
  intros Hin Hcommands.
  assert (is_Some (ord contact_action)) as [oa Hoa].
  { apply ord_is_Some. rewrite Forall_forall in Hcommands.
    by apply Hcommands. }
  unfold suggest_closest_command. rewrite Hoa.
  destruct (py_min_first_least
              (λ y, oy ← ord y; oa' ← Some oa;
                    Some (inject_Z (Z.abs (oy - oa'))))
              available_commands)
    as (pre & c & kc & post & Hrun & Heq & Hc & Hbefore & Hafter).
  - intros ->. by apply elem_of_nil in Hin.
  - eapply Forall_impl; [exact Hcommands|]. intros y Hy.
    apply ord_is_Some in Hy as [oy ->]. by eexists.
  - rewrite Hrun. f_equal.
    destruct (ord c) as [oc|] eqn:Hoc; [|done].
    cbn in Hc. injection Hc as <-.
    assert ((λ y : str, oy ← ord y; oa' ← Some oa;
                        Some (inject_Z (Z.abs (oy - oa')))) contact_action
            = Some (inject_Z (Z.abs (oa - oa)))) as Hself
      by (cbn beta; by rewrite Hoa).
    rewrite Heq in Hin. apply elem_of_app in Hin as [Hin|Hin].
    + specialize (Hbefore _ _ Hin Hself). rewrite <- Zlt_Qlt in Hbefore. lia.
    + apply elem_of_cons in Hin as [->|Hin]; [done|].
      specialize (Hafter _ _ Hin Hself). rewrite <- Zle_Qle in Hafter.
      apply (ord_inj _ _ oa); [|done]. rewrite Hoc. f_equal. lia.
Qed.

Lemma suggest_closest_command_first_nearest_witness :
  ∃ pre c post oa oc,
    suggest_closest_command (py "4") [py "1"; py "3"; py "5"; py "q"] = Some c ∧
    [py "1"; py "3"; py "5"; py "q"] = pre ++ c :: post ∧
    ord (py "4") = Some oa ∧ ord c = Some oc ∧
    (∀ x ox, x ∈ pre → ord x = Some ox →
             (Z.abs (oc - oa) < Z.abs (ox - oa))%Z) ∧
    (∀ x ox, x ∈ post → ord x = Some ox →
             (Z.abs (oc - oa) ≤ Z.abs (ox - oa))%Z).
Proof.
  apply (suggest_closest_command_first_nearest (py "4")
           [py "1"; py "3"; py "5"; py "q"]).
  - discriminate.
  - reflexivity.
  - repeat constructor.
Defined.

(** Between two commands at the same distance the earlier one wins. *)
Example suggest_closest_command_tie :
  suggest_closest_command (py "4") [py "1"; py "3"; py "5"; py "q"]
  = Some (py "3").
Proof. vm_compute. reflexivity. Qed.

Lemma suggest_closest_command_known_witness :
  suggest_closest_command (py "5") [py "1"; py "3"; py "5"; py "q"]
  = Some (py "5").
Proof.
  apply (suggest_closest_command_known (py "5")
           [py "1"; py "3"; py "5"; py "q"]).
  - do 2 apply list_elem_of_further. apply list_elem_of_here.
  - repeat constructor.
Defined.

(** ** [suggest_correction_search] *)

Lemma Qnat_zero (n : nat) : (Qnat n == 0)%Q → n = 0.
Proof.
  unfold Qnat. change 0%Q with (inject_Z 0). rewrite inject_Z_injective. lia.
Qed.

Lemma weighted_levenshtein_distance_nonneg s1 s2 q :
  weighted_levenshtein_distance s1 s2 = Some q → (0 <= q)%Q.
Proof.
  intros Hq.
  assert (∀ n, 0 <= Qnat n)%Q as Hnat.
  { intros n. change 0%Q with (Qnat 0). apply Qnat_le. lia. }
  destruct (decide (s1 = [])) as [->|H1].
  { rewrite weighted_levenshtein_distance_empty_l in Hq.
    injection Hq as <-. apply Hnat. }
  destruct (decide (s2 = [])) as [->|H2].
  { rewrite weighted_levenshtein_distance_empty_r in Hq.
    injection Hq as <-. apply Hnat. }
  destruct (weighted_levenshtein_distance_nonempty s1 s2 H1 H2)
    as (d & _ & Hw & Hge & _).
  rewrite Hw in Hq. by injection Hq as <-.
Qed.

Lemma weighted_levenshtein_distance_self s :
  ∃ q, weighted_levenshtein_distance s s = Some q ∧ (q == 0)%Q.
Proof.
  destruct (decide (s = [])) as [->|Hs].
  { exists (Qnat 0). by rewrite weighted_levenshtein_distance_empty_l. }
  destruct (weighted_levenshtein_distance_nonempty s s Hs Hs)
    as (d & Hd & Hw & _).
  rewrite levenshtein_distance_rec, lev_rec_diag in Hd. injection Hd as <-.
  eexists. split; [exact Hw|]. unfold Qdiv. apply Qmult_0_l.
Qed.

Lemma weighted_levenshtein_distance_zero s1 s2 q :
  weighted_levenshtein_distance s1 s2 = Some q → (q == 0)%Q → s1 = s2.
Proof.
  intros Hq Hzero.
  destruct (decide (s1 = [])) as [->|H1].
  { rewrite weighted_levenshtein_distance_empty_l in Hq. injection Hq as <-.
    apply Qnat_zero in Hzero. symmetry. by apply nil_length_inv. }
  destruct (decide (s2 = [])) as [->|H2].
  { rewrite weighted_levenshtein_distance_empty_r in Hq. injection Hq as <-.
    apply Qnat_zero in Hzero. by apply nil_length_inv. }
  destruct (weighted_levenshtein_distance_nonempty s1 s2 H1 H2)
    as (d & Hd & Hw & _).
  rewrite Hw in Hq. injection Hq as <-.
  rewrite levenshtein_distance_rec in Hd. injection Hd as <-.
  apply lev_rec_zero_eq.
  assert (0 < Nat.max (length s1) (length s2)) as Hpos.
  { destruct s1; [done|]. cbn [length]. lia. }
  apply Qnat_pos in Hpos.
  apply Qnat_zero.
  destruct (Qmult_integral _ _ Hzero) as [Hd|Hinv]; [done|].
  exfalso. apply Qinv_lt_0_compat in Hpos. rewrite Hinv in Hpos.
  by apply Qlt_irrefl in Hpos.
Qed.

(** X17: a query that is itself among the candidates is the suggestion: no
    other candidate is at weighted distance zero. *)
Theorem suggest_exact_candidate (search_term : str) (candidates : list str) :
  search_term ∈ candidates →
  suggest search_term candidates = Some search_term.
Proof.
  intros Hin.
  destruct (suggest_first_least_key search_term candidates)
    as (pre & c & kc & post & Hrun & Heq & Hc & Hbefore & Hafter).
  { intros ->. by apply elem_of_nil in Hin. }
  rewrite Hrun. f_equal.
  destruct (weighted_levenshtein_distance_self search_term) as (q & Hq & Hzero).
  pose proof (weighted_levenshtein_distance_nonneg _ _ _ Hc) as Hnonneg.
  rewrite Heq in Hin. apply elem_of_app in Hin as [Hin|Hin].
  - specialize (Hbefore _ _ Hin Hq). rewrite Hzero in Hbefore.
    exfalso. by apply (Qlt_not_le _ _ Hbefore).
  - apply elem_of_cons in Hin as [->|Hin]; [done|].
    specialize (Hafter _ _ Hin Hq). rewrite Hzero in Hafter.
    symmetry. apply (weighted_levenshtein_distance_zero _ _ kc Hc).
    by apply Qle_antisym.
Qed.

Lemma suggest_exact_candidate_witness :
  suggest (py "anna") [py "john"; py "anna"; py "ann"] = Some (py "anna").
Proof.
  apply (suggest_exact_candidate (py "anna") [py "john"; py "anna"; py "ann"]).
  apply list_elem_of_further, list_elem_of_here.
Defined.

Lemma all_search_terms_nil book : all_search_terms book = [] ↔ data book = [].
Proof.
  unfold all_search_terms. destruct (data book) as [|[k r] d]; [done|].
  by split.
Qed.

Lemma elem_of_all_search_terms book c :
  c ∈ all_search_terms book ↔
  ∃ r, r ∈ (data book).*2 ∧
       (c = rec_name r ∨ c ∈ rec_phones r ∨ c ∈ rec_emails r).
Proof.
  unfold all_search_terms.
  rewrite !elem_of_app, list_elem_of_fmap, !list_elem_of_bind. split.
  - intros [(r & -> & Hr)|[(r & Hc & Hr)|(r & Hc & Hr)]];
      exists r; (split; [done|]); auto.
  - intros (r & Hr & [->|[Hc|Hc]]).
    + left. by exists r.
    + right. left. by exists r.
    + right. right. by exists r.
Qed.

(** X18: [suggest_correction_search] raises exactly when the book holds no
    record; otherwise it returns the name, a phone or an email of a stored
    record. *)
Theorem suggest_correction_search_result (search_term : str)
    (book : AddressBook) :
  (data book = [] ∧ suggest_correction_search search_term book = None) ∨
  (data book ≠ [] ∧
   ∃ c r, suggest_correction_search search_term book = Some c ∧
          r ∈ (data book).*2 ∧
          (c = rec_name r ∨ c ∈ rec_phones r ∨ c ∈ rec_emails r)).
Proof.
  unfold suggest_correction_search.
  destruct (decide (data book = [])) as [Hempty|Hne].
  - left. split; [done|].
    by rewrite (proj2 (all_search_terms_nil book) Hempty).
  - right. split; [done|].
    destruct (suggest_first_least_key search_term (all_search_terms book))
      as (pre & c & kc & post & Hrun & Heq & _).
    { by rewrite all_search_terms_nil. }
    assert (c ∈ all_search_terms book) as Hc.
    { rewrite Heq. apply elem_of_app. right. apply list_elem_of_here. }
    apply elem_of_all_search_terms in Hc as (r & Hr & Hc).
    by exists c, r.
Qed.

(** ** Searching after adding and deleting *)

Lemma filter_all {A} (P : A → Prop) `{∀ x, Decision (P x)} (l : list A) :
  Forall P l → filter P l = l.
Proof.
  induction 1 as [|x l Hx _ IH]; [done|].
  rewrite filter_cons, decide_True by done. by rewrite IH.
Qed.

Lemma filter_none {A} (P : A → Prop) `{∀ x, Decision (P x)} (l : list A) :
  Forall (λ x, ¬ P x) l → filter P l = [].
Proof.
  induction 1 as [|x l Hx _ IH]; [done|].
  by rewrite filter_cons, decide_False.
Qed.

Section SearchComposition.

Variable lower : str → str.

Lemma matches_of_filter term (P : ContactRecord → Prop)
    `{∀ r, Decision (P r)} (records : list ContactRecord) :
  filter P records ≫= matches_of lower term =
  filter P (records ≫= matches_of lower term).
Proof.
  induction records as [|r records IH]; [done|].
  rewrite filter_cons, bind_cons, filter_app, <- IH.
  assert (Forall (λ x, x = r) (matches_of lower term r)) as Hall.
  { apply Forall_forall. intros x Hx.
    by apply elem_of_matches_of in Hx as [-> _]. }
  case_decide as HP.
  - rewrite bind_cons. f_equal. symmetry.
    apply filter_all. eapply Forall_impl; [exact Hall|]. by intros x ->.
  - rewrite (filter_none P (matches_of lower term r)); [done|].
    eapply Forall_impl; [exact Hall|]. by intros x ->.
Qed.

(** X19: in a reachable book [add_record] always returns, and afterwards a
    search goes through the records stored before, each showing the new
    identifier where it is the object added, and then through the record
    added; for an object that the book did not hold, every earlier search
    result stays in place and the matches of the new record come after
    them. *)
Theorem find_record_after_add (book : AddressBook) (record : ContactRecord)
    (term : str) :
  reachable book →
  (∃ i book', add_record book record i book') ∧
  ∀ i book', add_record book record i book' →
    find_record lower book' term =
      ((stamp record i (data book)).*2 ≫= matches_of lower term) ++
      matches_of lower term (set_id record i) ∧
    (rec_obj record ∉ rec_obj <$> (data book).*2 →
     find_record lower book' term =
     find_record lower book term ++ matches_of lower term (set_id record i)).
Proof.
  intros Hinv%reachable_inv. split; [apply add_record_returns|].
  intros i book' Hadd.
  destruct (add_record_data _ _ _ _ Hinv Hadd) as (Hdata & _ & _).
  assert (find_record lower book' term =
          ((stamp record i (data book)).*2 ≫= matches_of lower term)
          ++ matches_of lower term (set_id record i)) as Hfound.
  { rewrite find_record_matches, Hdata, fmap_app, bind_app.
    cbn. by rewrite app_nil_r. }
  split; [done|].
  intros Hobj. rewrite Hfound, stamp_unshared by done.
  by rewrite find_record_matches.
Qed.

(** X20: in a reachable book [add_record] always returns, and an object
    that the book did not hold is afterwards found under its own name,
    once. *)
Theorem find_record_added_by_name (book : AddressBook)
    (record : ContactRecord) :
  reachable book → rec_obj record ∉ rec_obj <$> (data book).*2 →
  (∃ i book', add_record book record i book') ∧
  ∀ i book', add_record book record i book' →
    count_occ ContactRecord_eq_dec
      (find_record lower book' (rec_name record)) (set_id record i) = 1.
Proof.
  intros Hinv%reachable_inv Hobj. split; [apply add_record_returns|].
  intros i book' Hadd.
  destruct (add_record_data _ _ _ _ Hinv Hadd) as (Hdata & _ & _).
  rewrite (find_record_multiplicity lower book' (rec_name record)
             (set_id record i)), Hdata, stamp_unshared by done.
  cbn [set_id rec_name].
  replace (str_in (lower (rec_name record)) (lower (rec_name record)))
    with true.
  2:{ symmetry. apply str_in_occurs. exists [], []. by rewrite app_nil_r. }
  rewrite Nat.mul_1_r, fmap_app, count_occ_app. cbn [fmap list_fmap snd].
  rewrite (proj1 (count_occ_not_In ContactRecord_eq_dec (data book).*2
                    (set_id record i))).
  - cbn [count_occ].
    by destruct (ContactRecord_eq_dec (set_id record i) (set_id record i)).
  - intros Hin%list_elem_of_In. apply Hobj.
    apply list_elem_of_fmap. by exists (set_id record i).
Qed.

(** X21: in a book built without storing an object twice, deleting an
    identifier removes from every search result the record that holds it and
    nothing else; an input that is no number removes nothing. *)
Theorem find_record_after_delete (book : AddressBook) (input : option Z)
    (term : str) :
  reachable_unshared book →
  find_record lower (delete_record_by_id book input).1 term =
  match input with
  | Some record_id =>
      filter (λ r, rec_id r ≠ Some record_id) (find_record lower book term)
  | None => find_record lower book term
  end.
Proof.
  intros Hinv%reachable_unshared_inv.
  destruct input as [record_id|]; [|done].
  rewrite !find_record_matches.
  rewrite <- matches_of_filter. f_equal.
  assert (∀ d : dict,
            (∀ k r, (k, r) ∈ d → rec_id r = Some k) →
            (filter (λ kv, kv.1 ≠ record_id) d).*2 =
            filter (λ r, rec_id r ≠ Some record_id) d.*2) as Hvalues.
  { induction d as [|[k r] d IH]; intros Hids; [done|].
    rewrite fmap_cons, !filter_cons. cbn [fst snd].
    rewrite (Hids k r) by apply list_elem_of_here.
    assert ((filter (λ kv : Z * ContactRecord, kv.1 ≠ record_id) d).*2 =
            filter (λ r, rec_id r ≠ Some record_id) d.*2) as IH'.
    { apply IH. intros k' r' Hin. apply Hids. by apply list_elem_of_further. }
    destruct (decide (k ≠ record_id)) as [Hk|Hk],
             (decide (Some k ≠ Some record_id)) as [Hs|Hs].
    - by rewrite fmap_cons, IH'.
    - exfalso. apply Hs. congruence.
    - exfalso. apply Hk. congruence.
    - exact IH'. }
  unfold delete_record_by_id. case_decide as Hin; cbn [fst data].
  - apply Hvalues. apply (unshared_ids _ Hinv).
  - symmetry. apply filter_all, Forall_forall.
    intros r Hr Heq. apply Hin.
    apply list_elem_of_fmap in Hr as ([k r'] & -> & Hkr). cbn [snd] in Heq.
    apply (unshared_ids _ Hinv) in Hkr as Hid.
    rewrite Hid in Heq. injection Heq as ->.
    apply list_elem_of_fmap. by exists (record_id, r').
Qed.

(** X22: where lower-casing keeps the empty string empty, the empty term
    finds every stored record, once each, in the order of the store. *)
Theorem find_record_empty_term (book : AddressBook) :
  lower [] = [] →
  find_record lower book [] = (data book).*2.
Proof.
  intros Hlower. rewrite find_record_matches.
  induction (data book).*2 as [|r records IH]; [done|].
  rewrite bind_cons, IH. unfold matches_of. rewrite Hlower.
  by destruct (lower (rec_name r)).
Qed.

End SearchComposition.

Lemma find_record_after_add_witness :
  reachable book_two ∧
  (∃ i book', add_record book_two jan i book') ∧
  ∀ i book', add_record book_two jan i book' →
    find_record lower_ascii book' (py "nowak") =
      ((stamp jan i (data book_two)).*2
         ≫= matches_of lower_ascii (py "nowak")) ++
      matches_of lower_ascii (py "nowak") (set_id jan i) ∧
    (rec_obj jan ∉ rec_obj <$> (data book_two).*2 →
     find_record lower_ascii book' (py "nowak") =
     find_record lower_ascii book_two (py "nowak") ++
     matches_of lower_ascii (py "nowak") (set_id jan i)).
Proof.
  split; [apply reachable_book_two|].
  apply (find_record_after_add lower_ascii book_two jan (py "nowak")
           reachable_book_two).
Defined.

Lemma find_record_added_by_name_witness :
  reachable book_two ∧ (rec_obj jan ∉ rec_obj <$> (data book_two).*2) ∧
  (∃ i book', add_record book_two jan i book') ∧
  ∀ i book', add_record book_two jan i book' →
    count_occ ContactRecord_eq_dec
      (find_record lower_ascii book' (rec_name jan)) (set_id jan i) = 1.
Proof.
  assert (rec_obj jan ∉ rec_obj <$> (data book_two).*2) as Hobj
    by (apply (bool_decide_unpack _); vm_compute; exact I).
  split; [apply reachable_book_two|]. split; [exact Hobj|].
  apply (find_record_added_by_name lower_ascii book_two jan
           reachable_book_two Hobj).
Defined.

Lemma find_record_after_delete_witness :
  reachable_unshared book_two ∧
  find_record lower_ascii (delete_record_by_id book_two (Some 1%Z)).1
    (py "nowak") =
  filter (λ r, rec_id r ≠ Some 1%Z)
    (find_record lower_ascii book_two (py "nowak")).
Proof.
  split; [apply unshared_book_two|].
  exact (find_record_after_delete lower_ascii book_two (Some 1%Z) (py "nowak")
           unshared_book_two).
Defined.

Lemma find_record_empty_term_witness :
  find_record lower_ascii book_two [] = (data book_two).*2.
Proof. exact (find_record_empty_term lower_ascii book_two eq_refl). Defined.

(** ** Field validation *)

Example validate_phone_samples :
  validate_phone (py "123456789") = true ∧
  validate_phone (py "12345678") = false ∧
  validate_phone (py "1234567890") = false ∧
  validate_phone (py "12345678a") = false ∧
  validate_phone (py "123456789" ++ [newline]) = true.
Proof. repeat split; vm_compute; reflexivity. Qed.

Example validate_email_samples :
  validate_email (py "jan.nowak@example.com") = true ∧
  validate_email (py "jan@example") = false ∧
  validate_email (py "@example.com") = false ∧
  validate_email (py "jan@@example.com") = false ∧
  validate_email (py "jan nowak@example.com") = false ∧
  validate_email (py "jan@example.com" ++ [newline]) = true.
Proof. repeat split; vm_compute; reflexivity. Qed.

Lemma nullable_lang r : nullable r = true ↔ lang r [].
Proof.
  induction r as [| |p|r1 IH1 r2 IH2|r1 IH1 r2 IH2|r IH]; cbn.
  - split; [done|]. inversion 1.
  - split; [constructor|done].
  - split; [done|]. inversion 1.
  - rewrite andb_true_iff, IH1, IH2. split.
    + intros [H1 H2]. by apply (lang_cat r1 r2 [] []).
    + inversion 1 as [| |? ? s1 s2 H1 H2 Heq1 Heq2| | | |]; subst.
      apply app_eq_nil in Heq2 as [-> ->]. done.
  - rewrite orb_true_iff, IH1, IH2. split.
    + intros [H|H]; [by apply lang_alt_l|by apply lang_alt_r].
    + inversion 1; subst; auto.
  - split; [constructor|done].
Qed.

Lemma lang_star_cons_inv r c s :
  lang (Star r) (c :: s) →
  ∃ s1 s2, s = s1 ++ s2 ∧ lang r (c :: s1) ∧ lang (Star r) s2.
Proof.
  intros H. remember (Star r) as r' eqn:Hr. remember (c :: s) as s' eqn:Hs.
  revert s Hs. induction H as [| | | | | |r0 s1 s2 H1 _ H2 IH2]; intros t Ht;
    try discriminate.
  injection Hr as ->. destruct s1 as [|c1 s1].
  - cbn in Ht. by apply IH2.
  - cbn in Ht. injection Ht as -> <-. by exists s1, s2.
Qed.

Lemma deriv_lang c r s : lang (deriv c r) s ↔ lang r (c :: s).
Proof.
  revert s. induction r as [| |p|r1 IH1 r2 IH2|r1 IH1 r2 IH2|r IH];
    intros s; cbn [deriv].
  - split; inversion 1.
  - split; inversion 1.
  - destruct (p c) eqn:Hp.
    + split.
      * inversion 1; subst. by constructor.
      * inversion 1; subst. constructor.
    + split; [inversion 1|]. inversion 1; subst. congruence.
  - split.
    + inversion 1 as [| | |? ? ? H1|? ? ? H2| |]; subst.
      * inversion H1 as [| |? ? s1 s2 Hd H2' | | | |]; subst.
        apply IH1 in Hd. by apply (lang_cat r1 r2 (c :: s1) s2).
      * destruct (nullable r1) eqn:Hnull; [|inversion H2].
        apply nullable_lang in Hnull. apply IH2 in H2.
        by apply (lang_cat r1 r2 [] (c :: s)).
    + inversion 1 as [| |? ? s1 s2 H1 H2 Heq1 Heq2| | | |]; subst.
      destruct s1 as [|c1 s1].
      * cbn in Heq2. subst s2. apply lang_alt_r.
        rewrite (proj2 (nullable_lang r1) H1). by apply IH2.
      * cbn in Heq2. injection Heq2 as -> <-. apply lang_alt_l.
        apply lang_cat; [by apply IH1|done].
  - split.
    + inversion 1; subst; [apply lang_alt_l|apply lang_alt_r];
        by (apply IH1 || apply IH2).
    + inversion 1; subst; [apply lang_alt_l|apply lang_alt_r];
        by (apply IH1 || apply IH2).
  - split.
    + inversion 1 as [| |? ? s1 s2 H1 H2| | | |]; subst.
      apply IH in H1. by apply (lang_star_cons r (c :: s1) s2).
    + intros H. apply lang_star_cons_inv in H as (s1 & s2 & -> & H1 & H2).
      apply lang_cat; [by apply IH|done].
Qed.

Lemma accepts_lang r s : accepts r s = true ↔ lang r s.
Proof.
  revert r. induction s as [|c s IH]; intros r; cbn [accepts].
  - apply nullable_lang.
  - rewrite IH. apply deriv_lang.
Qed.

Lemma match_anchored_lang body value :
  match_anchored body value = true ↔
  lang body value ∨ ∃ w, value = w ++ [newline] ∧ lang body w.
Proof.
  unfold match_anchored. rewrite orb_true_iff, accepts_lang.
  split.
  - intros [H|H]; [by left|]. right.
    destruct (last value) as [c|] eqn:Hlast; [|done].
    case_decide as Hc; [|done]. subst c.
    apply last_Some in Hlast as [w ->].
    rewrite removelast_last in H. exists w. split; [done|].
    by apply accepts_lang.
  - intros [H|(w & -> & H)]; [by left|]. right.
    rewrite last_snoc, decide_True by done.
    rewrite removelast_last. by apply accepts_lang.
Qed.

Lemma lang_times_class n p s :
  lang (Times n (Class p)) s ↔ length s = n ∧ Forall (λ c, p c = true) s.
Proof.
  revert s. induction n as [|n IH]; intros s; cbn [Times].
  - split.
    + inversion 1. by split.
    + intros [Hlen _]. apply nil_length_inv in Hlen as ->. constructor.
  - split.
    + inversion 1 as [| |? ? s1 s2 H1 H2| | | |]; subst.
      inversion H1; subst. apply IH in H2 as [Hlen Hall].
      cbn. split; [by rewrite Hlen|]. by constructor.
    + intros [Hlen Hall]. destruct s as [|c s]; [done|].
      apply Forall_cons in Hall as [Hc Hall].
      apply (lang_cat _ _ [c] s); [by constructor|].
      apply IH. split; [cbn in Hlen; lia|done].
Qed.

Lemma lang_star_class p s :
  lang (Star (Class p)) s ↔ Forall (λ c, p c = true) s.
Proof.
  split.
  - intros H. remember (Star (Class p)) as r eqn:Hr.
    induction H as [| | | | | |r0 s1 s2 H1 _ H2 IH2]; try discriminate.
    + constructor.
    + injection Hr as ->. inversion H1; subst.
      constructor; [done|]. by apply IH2.
  - induction 1 as [|c s Hc _ IH]; [constructor|].
    apply (lang_star_cons _ [c] s); [by constructor|done].
Qed.

Lemma lang_plus_class p s :
  lang (Plus (Class p)) s ↔ s ≠ [] ∧ Forall (λ c, p c = true) s.
Proof.
  unfold Plus. split.
  - inversion 1 as [| |? ? s1 s2 H1 H2| | | |]; subst.
    inversion H1; subst. apply lang_star_class in H2.
    split; [done|]. by constructor.
  - intros [Hne Hall]. destruct s as [|c s]; [done|].
    apply Forall_cons in Hall as [Hc Hall].
    apply (lang_cat _ _ [c] s); [by constructor|].
    by apply lang_star_class.
Qed.

Lemma lang_cat_inv r1 r2 s :
  lang (Cat r1 r2) s ↔ ∃ s1 s2, s = s1 ++ s2 ∧ lang r1 s1 ∧ lang r2 s2.
Proof.
  split.
  - inversion 1 as [| |? ? s1 s2 H1 H2| | | |]; subst. by exists s1, s2.
  - intros (s1 & s2 & -> & H1 & H2). by constructor.
Qed.

Lemma lang_class_inv p s : lang (Class p) s ↔ ∃ c, s = [c] ∧ p c = true.
Proof.
  split.
  - inversion 1 as [|? c Hc| | | | |]; subst. by exists c.
  - intros (c & -> & Hc). by constructor.
Qed.

(** X23: [validate_phone] accepts exactly the strings of nine digits, and
    those followed by one line feed. *)
Theorem validate_phone_exact (value : str) :
  validate_phone value = true ↔
  ∃ digits, length digits = 9 ∧ Forall (λ c, is_digit c = true) digits ∧
            (value = digits ∨ value = digits ++ [newline]).
Proof.
  unfold validate_phone, phone_pattern. rewrite match_anchored_lang. split.
  - intros [H|(w & -> & H)]; apply lang_times_class in H as [Hlen Hall].
    + exists value. auto.
    + exists w. auto.
  - intros (digits & Hlen & Hall & [->| ->]).
    + left. by apply lang_times_class.
    + right. exists digits. split; [done|]. by apply lang_times_class.
Qed.

Lemma lang_email_pattern w :
  lang email_pattern w ↔
  ∃ local domain tail,
    w = local ++ "@"%char :: domain ++ "."%char :: tail ∧
    local ≠ [] ∧ Forall (λ c, is_local_char c = true) local ∧
    domain ≠ [] ∧ Forall (λ c, is_domain_char c = true) domain ∧
    tail ≠ [] ∧ Forall (λ c, is_tail_char c = true) tail.
Proof.
  unfold email_pattern. rewrite lang_cat_inv. split.
  - intros (local & rest1 & -> & Hlocal & Hrest1).
    apply lang_cat_inv in Hrest1 as (at_ & rest2 & -> & Hat & Hrest2).
    apply lang_class_inv in Hat as (c & -> & Hc).
    apply bool_decide_eq_true in Hc as ->.
    apply lang_cat_inv in Hrest2 as (domain & rest3 & -> & Hdomain & Hrest3).
    apply lang_cat_inv in Hrest3 as (dot & tail & -> & Hdot & Htail).
    apply lang_class_inv in Hdot as (c & -> & Hc).
    apply bool_decide_eq_true in Hc as ->.
    apply lang_plus_class in Hlocal as [? ?].
    apply lang_plus_class in Hdomain as [? ?].
    apply lang_plus_class in Htail as [? ?].
    by exists local, domain, tail.
  - intros (local & domain & tail & -> & ? & ? & ? & ? & ? & ?).
    exists local, ("@"%char :: domain ++ "."%char :: tail).
    split; [done|]. split; [by apply lang_plus_class|].
    apply (lang_cat _ _ ["@"%char]); [by constructor|].
    apply lang_cat; [by apply lang_plus_class|].
    apply (lang_cat _ _ ["."%char]); [by constructor|].
    by apply lang_plus_class.
Qed.

(** X24: [validate_email] accepts exactly the strings made of a non-empty
    local part, an at sign, a non-empty domain label, a dot and a non-empty
    rest, each over its own character class, and those followed by one line
    feed. *)
Theorem validate_email_exact (value : str) :
  validate_email value = true ↔
  ∃ local domain tail,
    local ≠ [] ∧ Forall (λ c, is_local_char c = true) local ∧
    domain ≠ [] ∧ Forall (λ c, is_domain_char c = true) domain ∧
    tail ≠ [] ∧ Forall (λ c, is_tail_char c = true) tail ∧
    (value = local ++ "@"%char :: domain ++ "."%char :: tail ∨
     value = (local ++ "@"%char :: domain ++ "."%char :: tail) ++ [newline]).
Proof.
  unfold validate_email. rewrite match_anchored_lang. split.
  - intros [H|(w & -> & H)];
      apply lang_email_pattern in H
        as (local & domain & tail & -> & ? & ? & ? & ? & ? & ?);
      exists local, domain, tail; auto 10.
  - intros (local & domain & tail & ? & ? & ? & ? & ? & ? & [->| ->]).
    + left. apply lang_email_pattern. by exists local, domain, tail.
    + right. eexists. split; [done|].
      apply lang_email_pattern. by exists local, domain, tail.
Qed.

Lemma class_chars_not_at (c : ascii) :
  is_local_char c = true ∨ is_domain_char c = true ∨ is_tail_char c = true →
  c ≠ "@"%char.
Proof.
  intros H ->. vm_compute in H. by destruct H as [H|[H|H]].
Qed.

Lemma count_occ_class (p : ascii → bool) (s : str) :
  (∀ c, p c = true → c ≠ "@"%char) →
  Forall (λ c, p c = true) s → count_occ ascii_dec s "@"%char = 0.
Proof.
  intros Hp Hall. apply count_occ_not_In. intros Hin.
  rewrite Forall_forall in Hall. apply list_elem_of_In in Hin.
  by apply (Hp _ (Hall _ Hin)).
Qed.

(** X25: a value that [Email] accepts has exactly one at sign, and at least
    five characters. *)
Theorem Email_one_at_sign (value email : str) :
  Email value = Some email →
  email = value ∧ count_occ ascii_dec value "@"%char = 1 ∧ 5 ≤ length value.
Proof.
  unfold Email. destruct (validate_email value) eqn:Hvalid; [|done].
  intros [= <-]. split; [done|].
  assert (∃ w, lang email_pattern w ∧ (value = w ∨ value = w ++ [newline]))
    as (w & Hw & Hvalue).
  { unfold validate_email in Hvalid.
    apply match_anchored_lang in Hvalid as [H|(w & -> & H)]; eauto. }
  apply lang_email_pattern in Hw
    as (local & domain & tail & -> & Hl & Hlocal & Hd & Hdomain & Ht & Htail).
  assert (count_occ ascii_dec
            (local ++ "@"%char :: domain ++ "."%char :: tail) "@"%char = 1)
    as Hcount.
  { rewrite count_occ_app, (count_occ_class is_local_char) by
      (done || (intros c Hc; apply class_chars_not_at; auto)).
    rewrite count_occ_cons_eq by done.
    rewrite count_occ_app, (count_occ_class is_domain_char) by
      (done || (intros c Hc; apply class_chars_not_at; auto)).
    rewrite count_occ_cons_neq by done.
    rewrite (count_occ_class is_tail_char) by
      (done || (intros c Hc; apply class_chars_not_at; auto)).
    done. }
  assert (5 ≤ length (local ++ "@"%char :: domain ++ "."%char :: tail)) as Hlen.
  { rewrite length_app. cbn [length]. rewrite length_app. cbn [length].
    destruct local, domain, tail; try done. cbn [length]. lia. }
  destruct Hvalue as [->| ->]; [done|].
  rewrite count_occ_app, length_app, Hcount. cbn. split; [done|]. lia.
Qed.

Lemma Email_one_at_sign_witness :
  py "jan.nowak@example.com" = py "jan.nowak@example.com" ∧
  count_occ ascii_dec (py "jan.nowak@example.com") "@"%char = 1 ∧
  5 ≤ length (py "jan.nowak@example.com").
Proof.
  apply (Email_one_at_sign (py "jan.nowak@example.com")
           (py "jan.nowak@example.com")).
  vm_compute. reflexivity.
Defined.
